(** * HexFileInfo: the Intel HEX record parser and chunk accumulator

    A shallow embedding of [src/HexFileInfo.cpp] (functions [fromHex],
    [checkMergeChunk], [makePrintable] and the body of [processHexFile]),
    followed by the properties of the specification that concern them.

    Conventions of the embedding:
    - [unsigned] is a 32-bit integer ([sizeof_unsigned = 4], as on the
      usual ABIs); it is a [Z] and every arithmetic result is passed
      through [wrap];
    - [unsigned char] is a [Z] reduced modulo 256;
    - a [std::string] / [std::span<char>] is a [list ascii];
    - [std::list<Chunk>] is a [list Chunk], front first;
    - a thrown [std::runtime_error] is the [Throw] outcome; reading a span
      outside its bounds (undefined behaviour in C++) is the [OutOfBounds]
      outcome, so that its absence can be stated and proved. *)

From Stdlib Require Import ZArith List Ascii String Bool Lia Permutation.
Import ListNotations.

#[local] Open Scope Z_scope.

(* ================================================================== *)
(** ** Machine integers *)

Definition sizeof_unsigned : Z := 4.

Definition UINT_MODULUS : Z := 2 ^ (8 * sizeof_unsigned).

(** Reduction of an arithmetic result to [unsigned]. *)
Definition wrap (x : Z) : Z := x mod UINT_MODULUS.

(** Reduction of an arithmetic result to [unsigned char]. *)
Definition wrap8 (x : Z) : Z := x mod 256.

(* ================================================================== *)
(** ** Outcomes of fallible code *)

Inductive error : Type :=
| NumberTooLarge      (* throwError("Number too large") *)
| FormatError         (* throwFormatError() *)
| IncorrectChecksum   (* throwError("Incorrect checksum") *)
| EofBeforeEnd        (* throwError("EOF record before end of file") *)
| ReadError.          (* throwFileError("Error reading file") *)

(** The text of [e.what()], without the file name that [throwFileError]
    appends. *)
Definition what (e : error) : string :=
  match e with
  | NumberTooLarge => "Number too large"
  | FormatError => "Invalid data in hex file"
  | IncorrectChecksum => "Incorrect checksum"
  | EofBeforeEnd => "EOF record before end of file"
  | ReadError => "Error reading file"
  end.

Inductive outcome (A : Type) : Type :=
| Ok (a : A)
| Throw (e : error)
| OutOfBounds    (* a span read outside its extent *)
| OutOfFuel.     (* a loop of the model ran out of its iteration budget *)

Arguments Ok {A} a.
Arguments Throw {A} e.
Arguments OutOfBounds {A}.
Arguments OutOfFuel {A}.

Definition bind {A B : Type} (m : outcome A) (k : A -> outcome B) : outcome B :=
  match m with
  | Ok a => k a
  | Throw e => Throw e
  | OutOfBounds => OutOfBounds
  | OutOfFuel => OutOfFuel
  end.

Notation "x <- m ;; k" := (bind m (fun x => k))
  (at level 61, m at next level, right associativity).

(** [if (cond) throw ...;] *)
Definition throwIf (cond : bool) (e : error) : outcome unit :=
  if cond then Throw e else Ok tt.

(* ================================================================== *)
(** ** Characters and spans *)

Definition code (c : ascii) : Z := Z.of_N (N_of_ascii c).

(** [std::isxdigit] in the "C" locale; false on every character code
    above 127. *)
Definition isxdigit (c : ascii) : bool :=
  let n := code c in
  ((48 <=? n) && (n <=? 57)) || ((65 <=? n) && (n <=? 70))
  || ((97 <=? n) && (n <=? 102)).

(** [std::tolower] in the "C" locale, on character codes. *)
Definition tolower (n : Z) : Z :=
  if (65 <=? n) && (n <=? 90) then n + 32 else n.

(** [std::isprint] in the "C" locale. *)
Definition isprint (c : ascii) : bool :=
  let n := code c in (32 <=? n) && (n <=? 126).

Definition size (s : list ascii) : Z := Z.of_nat (List.length s).

(** [s.subspan(offset, count)]: defined only inside the span. *)
Definition subspan (offset count : Z) (s : list ascii) : outcome (list ascii) :=
  if (0 <=? offset) && (0 <=? count) && (offset + count <=? size s)
  then Ok (firstn (Z.to_nat count) (skipn (Z.to_nat offset) s))
  else OutOfBounds.

(** [s.front()]: defined only on a non-empty span. *)
Definition front (s : list ascii) : outcome ascii :=
  match s with
  | c :: _ => Ok c
  | [] => OutOfBounds
  end.

(* ================================================================== *)
(** ** [makePrintable] *)

Definition maxLen : nat := 64.

Definition makePrintable (str : list ascii) : list ascii :=
  let strNew :=
    if (List.length str <=? maxLen)%nat then str
    else firstn maxLen str ++ list_ascii_of_string "[etc]" in
  map (fun ch => if negb (isprint ch) then "?"%char else ch) strNew.

(* ================================================================== *)
(** ** [fromHex] *)

(** The body of the [for (char digit : hex)] loop, with [n] threaded. *)
Fixpoint fromHex_loop (hex : list ascii) (n : Z) : outcome Z :=
  match hex with
  | [] => Ok n
  | digit :: rest =>
      if negb (isxdigit digit) then Throw FormatError
      else
        let d := tolower (code digit) in
        fromHex_loop rest
          (wrap (n * 16 + (if d >=? 97 then d - 97 + 10 else d - 48)))
  end.

Definition fromHex (hex : list ascii) : outcome Z :=
  if size hex >? 2 * sizeof_unsigned then Throw NumberTooLarge
  else fromHex_loop hex 0.

(* ================================================================== *)
(** ** Chunks *)

Record Chunk : Type := mkChunk { address : Z; csize : Z }.

(** [checkMergeChunk(chunk, iter)]: the returned flag, and the value of
    [*iter] afterwards. *)
Definition checkMergeChunk (chunk it : Chunk) : bool * Chunk :=
  if wrap (address it + csize it) =? address chunk then
    (true, mkChunk (address it) (wrap (csize it + csize chunk)))
  else if wrap (address chunk + csize chunk) =? address it then
    (true, mkChunk (address chunk) (wrap (csize it + csize chunk)))
  else (false, it).

(** The overlap test of the scan. *)
Definition overlapping (chunk it : Chunk) : bool :=
  (wrap (address it + csize it) >? address chunk)
  && (wrap (address chunk + csize chunk) >? address it).

(** The [if (fAdded) { ... break; }] block: [cur] is [*iter], [following]
    is the list from [next] on. The result is the list from [iter] on. *)
Definition mergeFollowing (cur : Chunk) (following : list Chunk) : list Chunk :=
  match following with
  | [] => [cur]
  | next :: tl =>
      let '(merged, next') := checkMergeChunk cur next in
      if merged then next' :: tl        (* chunks.erase(iter) *)
      else cur :: next :: tl
  end.

(** The [for (auto iter = chunks.begin(); ...)] loop on the list from
    [iter] on. Returns [fAdded], the list from [iter] on as the loop
    leaves it, and [numOverlapping]. *)
Fixpoint scanChunks (chunk : Chunk) (l : list Chunk) (numOverlapping : Z)
  : bool * list Chunk * Z :=
  match l with
  | [] => (false, [], numOverlapping)
  | it :: rest =>
      let numOverlapping :=
        if overlapping chunk it then wrap (numOverlapping + 1)
        else numOverlapping in
      let '(merged, it') := checkMergeChunk chunk it in
      if merged then
        (true, mergeFollowing it' rest, numOverlapping)
      else if address chunk >=? address it then
        (* iter = chunks.insert(iter, chunk) *)
        (true, mergeFollowing chunk (it :: rest), numOverlapping)
      else
        let '(fAdded, rest', n) := scanChunks chunk rest numOverlapping in
        (fAdded, it :: rest', n)
  end.

(** The [case typeData] list update: the collection and the overlap
    counter after the chunk has been added. *)
Definition addChunk (chunk : Chunk) (chunks : list Chunk) (numOverlapping : Z)
  : list Chunk * Z :=
  let '(fAdded, chunks', n) := scanChunks chunk chunks numOverlapping in
  if fAdded then (chunks', n)
  else (chunk :: chunks', n).             (* chunks.push_front(chunk) *)

(* ================================================================== *)
(** ** Record types *)

Definition recordType_t : Type := Z.

Definition typeNone : recordType_t := -1.
Definition typeData : recordType_t := 0.
Definition typeEof : recordType_t := 1.
Definition typeEsa : recordType_t := 2.
Definition typeSsa : recordType_t := 3.
Definition typeEla : recordType_t := 4.
Definition typeSla : recordType_t := 5.

(* ================================================================== *)
(** ** [processHexFile]: the state of the session *)

Definition dataOffset : Z := 1 + 2 + 4 + 2.
Definition minLineSize : Z := dataOffset + 0 + 2.
Definition maxLineSize : Z := minLineSize + 2 * 255.

(** The local variables of [processHexFile] that live across lines. *)
Record State : Type := mkState {
  chunks : list Chunk;
  numOverlapping : Z;
  baseAddress : Z;
  foundEof : bool;
  numStartAddresses : Z;
  startAddress : Z;
  numDataRecords : Z;
  maxDataSize : Z;
  iLine : Z
}.

Definition initialState : State :=
  {| chunks := []; numOverlapping := 0; baseAddress := 0; foundEof := false;
     numStartAddresses := 0; startAddress := 0; numDataRecords := 0;
     maxDataSize := 0; iLine := 1 |}.

(** The variables that the parsing part of the loop body leaves for the
    [switch]. *)
Record Fields : Type := mkFields {
  f_dataSize : Z;
  f_address : Z;
  f_recordType : recordType_t;
  f_dataSpan : list ascii
}.

(* ================================================================== *)
(** ** [processHexFile]: parsing one line (source lines 139-153) *)

(** [for (unsigned i = 1; i < line.size() - 1; i += 2) checksum += ...]
    from the state [(i, checksum)]; [fuel] bounds the iterations. Here
    [line.size() >= minLineSize], so [line.size() - 1] does not wrap. *)
Fixpoint checksumLoop (fuel : nat) (line : list ascii) (i checksum : Z)
  : outcome Z :=
  match fuel with
  | O => OutOfFuel
  | S fuel' =>
      if i <? size line - 1 then
        group <- subspan i 2 line ;;
        byte <- fromHex group ;;
        checksumLoop fuel' line (wrap (i + 2)) (wrap8 (wrap (checksum + byte)))
      else Ok checksum
  end.

Definition parseLine (baseAddress : Z) (line : list ascii) : outcome Fields :=
  _ <- throwIf (size line <? minLineSize) FormatError ;;
  _ <- throwIf (size line >? maxLineSize) FormatError ;;
  c <- front line ;;
  _ <- throwIf (negb (Ascii.eqb c ":")) FormatError ;;
  countSpan <- subspan 1 2 line ;;
  dataSize <- fromHex countSpan ;;
  _ <- throwIf (negb (size line =? wrap (minLineSize + wrap (2 * dataSize))))
         FormatError ;;
  addressSpan <- subspan 3 4 line ;;
  rawAddress <- fromHex addressSpan ;;
  let address := wrap (baseAddress + rawAddress) in
  typeSpan <- subspan 7 2 line ;;
  recordType <- fromHex typeSpan ;;
  dataSpan <- subspan dataOffset (wrap (2 * dataSize)) line ;;
  checksum <- checksumLoop (List.length line) line 1 0 ;;
  _ <- throwIf (negb (checksum =? 0)) IncorrectChecksum ;;
  Ok (mkFields dataSize address recordType dataSpan).

(* ================================================================== *)
(** ** [processHexFile]: the [switch] on the record type *)

Definition handleRecord (st : State) (line : list ascii) (f : Fields)
  : outcome State :=
  let dataSize := f_dataSize f in
  let recordType := f_recordType f in
  if recordType =? typeEof then
    _ <- throwIf (negb (dataSize =? 0)) FormatError ;;
    Ok {| chunks := chunks st; numOverlapping := numOverlapping st;
          baseAddress := baseAddress st; foundEof := true;
          numStartAddresses := numStartAddresses st;
          startAddress := startAddress st;
          numDataRecords := numDataRecords st;
          maxDataSize := maxDataSize st; iLine := iLine st |}
  else if recordType =? typeEsa then
    _ <- throwIf (negb (dataSize =? 2)) FormatError ;;
    v <- fromHex (f_dataSpan f) ;;
    Ok {| chunks := chunks st; numOverlapping := numOverlapping st;
          baseAddress := wrap (Z.shiftl v 4); foundEof := foundEof st;
          numStartAddresses := numStartAddresses st;
          startAddress := startAddress st;
          numDataRecords := numDataRecords st;
          maxDataSize := maxDataSize st; iLine := iLine st |}
  else if recordType =? typeSsa then
    _ <- throwIf (negb (dataSize =? 4)) FormatError ;;
    csSpan <- subspan dataOffset 4 line ;;
    cs <- fromHex csSpan ;;
    ipSpan <- subspan (dataOffset + 4) 4 line ;;
    ip <- fromHex ipSpan ;;
    Ok {| chunks := chunks st; numOverlapping := numOverlapping st;
          baseAddress := baseAddress st; foundEof := foundEof st;
          numStartAddresses := wrap (numStartAddresses st + 1);
          startAddress := wrap (wrap (Z.shiftl cs 4) + ip);
          numDataRecords := numDataRecords st;
          maxDataSize := maxDataSize st; iLine := iLine st |}
  else if recordType =? typeEla then
    _ <- throwIf (negb (dataSize =? 2)) FormatError ;;
    v <- fromHex (f_dataSpan f) ;;
    Ok {| chunks := chunks st; numOverlapping := numOverlapping st;
          baseAddress := wrap (Z.shiftl v 16); foundEof := foundEof st;
          numStartAddresses := numStartAddresses st;
          startAddress := startAddress st;
          numDataRecords := numDataRecords st;
          maxDataSize := maxDataSize st; iLine := iLine st |}
  else if recordType =? typeSla then
    _ <- throwIf (negb (dataSize =? 4)) FormatError ;;
    v <- fromHex (f_dataSpan f) ;;
    Ok {| chunks := chunks st; numOverlapping := numOverlapping st;
          baseAddress := baseAddress st; foundEof := foundEof st;
          numStartAddresses := wrap (numStartAddresses st + 1);
          startAddress := v;
          numDataRecords := numDataRecords st;
          maxDataSize := maxDataSize st; iLine := iLine st |}
  else if recordType =? typeData then
    let chunk := mkChunk (f_address f) dataSize in
    let '(chunks', numOverlapping') :=
      addChunk chunk (chunks st) (numOverlapping st) in
    Ok {| chunks := chunks'; numOverlapping := numOverlapping';
          baseAddress := baseAddress st; foundEof := foundEof st;
          numStartAddresses := numStartAddresses st;
          startAddress := startAddress st;
          numDataRecords := wrap (numDataRecords st + 1);
          maxDataSize := Z.max (maxDataSize st) dataSize; iLine := iLine st |}
  else
    (* default: bad record type *)
    Throw FormatError.

(** [++iLine] at the end of the loop body. *)
Definition nextLine (st : State) : State :=
  {| chunks := chunks st; numOverlapping := numOverlapping st;
     baseAddress := baseAddress st; foundEof := foundEof st;
     numStartAddresses := numStartAddresses st;
     startAddress := startAddress st;
     numDataRecords := numDataRecords st;
     maxDataSize := maxDataSize st; iLine := wrap (iLine st + 1) |}.

(** One iteration of the [while (std::getline(input, stLine))] loop. *)
Definition processLine (st : State) (line : list ascii) : outcome State :=
  _ <- throwIf (foundEof st) EofBeforeEnd ;;
  f <- parseLine (baseAddress st) line ;;
  st' <- handleRecord st line f ;;
  Ok (nextLine st').

(* ================================================================== *)
(** ** [processHexFile]: the loop over the input and the [catch] *)

(** How the input stream ends: cleanly, or with a read failure that
    leaves [partial] in [stLine]. *)
Inductive streamEnd : Type :=
| CleanEof
| Broken (partial : list ascii).

(** What [processHexFile] leaves: the state from which the summary is
    printed, or the exception re-thrown by the [catch] with the line
    number and the printable copy of [stLine]. *)
Inductive result : Type :=
| Finished (st : State)
| Failed (e : error) (line_no : Z) (text : list ascii)
| Undefined.     (* the loop body left [OutOfBounds] or [OutOfFuel] *)

Fixpoint lineLoop (input : list (list ascii)) (ending : streamEnd) (st : State)
  : result :=
  match input with
  | [] =>
      match ending with
      | CleanEof => Finished st
      | Broken partial => Failed ReadError (iLine st) (makePrintable partial)
      end
  | stLine :: rest =>
      match processLine st stLine with
      | Ok st' => lineLoop rest ending st'
      | Throw e => Failed e (iLine st) (makePrintable stLine)
      | OutOfBounds | OutOfFuel => Undefined
      end
  end.

Definition processHexFile (input : list (list ascii)) (ending : streamEnd)
  : result :=
  lineLoop input ending initialState.

(** Adding a sequence of chunks, first to last, as successive data
    records do. *)
Definition addChunks (cs : list Chunk) (acc : list Chunk * Z) : list Chunk * Z :=
  fold_left (fun a c => addChunk c (fst a) (snd a)) cs acc.

(* ================================================================== *)
(** ** [processHexFile]: the summary (source lines 238-255) *)

(** One line written to [std::cout]; each constructor stands for one
    format string, with the values that fill it. *)
Inductive outputLine : Type :=
| MissingEof                                 (* "Missing EOF record" *)
| MultipleStartAddresses                     (* "Multiple start addresses found" *)
| StartAddress (a : Z)                       (* "Start address: 0x{:X}" *)
| DataRecords (n max : Z)                    (* "{} data records, max size {}" *)
| DataSegments (n : Z) (overlaps : option Z) (* "{} data segments[, {} overlaps found]:" *)
| Segment (start sz : Z).                    (* "start 0x{:X} size 0x{:X}" *)

(** The lines printed after the loop, in order. *)
Definition printSummary (st : State) : list outputLine :=
  (if negb (foundEof st) then [MissingEof] else [])
  ++ (if numStartAddresses st >? 1 then [MultipleStartAddresses]
      else if numStartAddresses st >? 0 then [StartAddress (startAddress st)]
      else [])
  ++ [DataRecords (numDataRecords st) (maxDataSize st)]
  ++ [DataSegments (Z.of_nat (List.length (chunks st)))
        (if numOverlapping st >? 0 then Some (numOverlapping st) else None)]
  ++ map (fun chunk => Segment (address chunk) (csize chunk))
       (rev (chunks st)).

(* ================================================================== *)
(** ** [main] *)

(** The value that [main] returns once [processHexFile] has left
    [r]: 0 after the summary, 2 from the [catch]. *)
Definition exitAfter (r : result) : option Z :=
  match r with
  | Finished _ => Some 0
  | Failed _ _ _ => Some 2
  | Undefined => None
  end.

(** [main], as a function of the argument count, of whether opening the
    named file failed, and of the content of the input stream (standard
    input when [argc = 1], the file when [argc = 2]). *)
Definition main (argc : Z) (openFailed : bool)
  (input : list (list ascii)) (ending : streamEnd) : option Z :=
  if argc =? 1 then exitAfter (processHexFile input ending)
  else if argc =? 2 then
    if openFailed then Some 2        (* throwFileError("Failed to open file") *)
    else exitAfter (processHexFile input ending)
  else Some 1.                       (* usage message *)

(* ================================================================== *)
(** ** Notions of the specification *)

(** *** Hexadecimal digits and big-endian values *)

(** The position of a character in a run of characters, counted from
    [i]. *)
Fixpoint position (c : ascii) (s : list ascii) (i : Z) : option Z :=
  match s with
  | [] => None
  | d :: rest => if Ascii.eqb c d then Some i else position c rest (i + 1)
  end.

(** The value of an ASCII hex digit ([0-9a-fA-F]), which is its position
    among the sixteen digits in either letter case; [None] for any other
    character. *)
Definition hexDigit (c : ascii) : option Z :=
  match position c (list_ascii_of_string "0123456789abcdef") 0 with
  | Some d => Some d
  | None => position c (list_ascii_of_string "0123456789ABCDEF") 0
  end.

Definition digitValue (c : ascii) : Z :=
  match hexDigit c with Some d => d | None => 0 end.

(** The number that a sequence of digits denotes, most significant digit
    first: digit [k] from the left of [L] digits weighs [16 ^ (L - 1 - k)]. *)
Fixpoint bigEndian (digits : list Z) : Z :=
  match digits with
  | [] => 0
  | d :: rest => d * 16 ^ Z.of_nat (List.length rest) + bigEndian rest
  end.

Definition hexValue (hex : list ascii) : Z := bigEndian (map digitValue hex).

(** The decoder's capacity in digits. *)
Definition capacity : Z := 2 * sizeof_unsigned.

(** *** Records as the format describes them *)

Definition isHexDigit (c : ascii) : bool :=
  match hexDigit c with Some _ => true | None => false end.

(** The 2-digit groups of a run of characters, left to right (a last
    single character forms no group). *)
Fixpoint groups (s : list ascii) : list (list ascii) :=
  match s with
  | a :: b :: rest => [a; b] :: groups rest
  | _ => []
  end.

(** The byte values that a line carries after its start code: byte
    count, address (two bytes), record type, payload, checksum byte. *)
Definition recordBytes (line : list ascii) : list Z :=
  map hexValue (groups (tl line)).

(** The sum, modulo 256, of all those bytes. *)
Definition byteSum (line : list ascii) : Z :=
  fold_right Z.add 0 (recordBytes line) mod 256.

(** The byte-count field [N]: characters [1, 3). *)
Definition byteCount (line : list ascii) : Z :=
  hexValue (firstn 2 (skipn 1 line)).

(** The 16-bit address field: characters [3, 7). *)
Definition rawAddress (line : list ascii) : Z :=
  hexValue (firstn 4 (skipn 3 line)).

(** The record-type field: characters [7, 9). *)
Definition typeField (line : list ascii) : Z :=
  hexValue (firstn 2 (skipn 7 line)).

(** The payload characters: [9, 9 + 2N). *)
Definition payloadSpan (line : list ascii) : list ascii :=
  firstn (Z.to_nat (2 * byteCount line)) (skipn 9 line).

(** A correctly framed line: start code [:], then hex digits only, and
    [11 + 2N] characters in all. *)
Definition wellFramed (line : list ascii) : bool :=
  match line with
  | c :: rest =>
      Ascii.eqb c ":" && forallb isHexDigit rest
      && (size line =? 11 + 2 * byteCount line)
  | [] => false
  end.

(** What the parsing part hands to the [switch] for a line. *)
Definition fieldsOf (baseAddress : Z) (line : list ascii) : Fields :=
  {| f_dataSize := byteCount line;
     f_address := wrap (baseAddress + rawAddress line);
     f_recordType := typeField line;
     f_dataSpan := payloadSpan line |}.

(** *** Runs of the line loop *)

(** The loop body over a run of lines, as long as no line throws. *)
Fixpoint runLines (input : list (list ascii)) (st : State) : outcome State :=
  match input with
  | [] => Ok st
  | stLine :: rest => st' <- processLine st stLine ;; runLines rest st'
  end.

(** The largest base address that an address record can set:
    [0xFFFF << 16]. *)
Definition maxBaseAddress : Z := 4294901760.

(** The state after an address record has replaced the base address. *)
Definition withBaseAddress (st : State) (base : Z) : State :=
  {| chunks := chunks st; numOverlapping := numOverlapping st;
     baseAddress := base; foundEof := foundEof st;
     numStartAddresses := numStartAddresses st;
     startAddress := startAddress st;
     numDataRecords := numDataRecords st;
     maxDataSize := maxDataSize st; iLine := iLine st |}.

(** The state after a data record has contributed [chunk]. *)
Definition withData (st : State) (chunk : Chunk) : State :=
  {| chunks := fst (addChunk chunk (chunks st) (numOverlapping st));
     numOverlapping := snd (addChunk chunk (chunks st) (numOverlapping st));
     baseAddress := baseAddress st; foundEof := foundEof st;
     numStartAddresses := numStartAddresses st;
     startAddress := startAddress st;
     numDataRecords := wrap (numDataRecords st + 1);
     maxDataSize := Z.max (maxDataSize st) (csize chunk); iLine := iLine st |}.

(** *** Regions of memory *)

(** The first address after a chunk, as a mathematical integer. *)
Definition chunkEnd (c : Chunk) : Z := address c + csize c.

(** A chunk of at least one byte that lies inside the 32-bit address
    space and stops short of its last address. *)
Definition valid (c : Chunk) : Prop :=
  0 <= address c /\ 0 < csize c /\ chunkEnd c < UINT_MODULUS.

(** Address [x] belongs to the chunk. *)
Definition covers (c : Chunk) (x : Z) : Prop := address c <= x < chunkEnd c.

(** Address [x] belongs to some chunk of the list. *)
Definition covered (l : list Chunk) (x : Z) : Prop :=
  exists e, In e l /\ covers e x.

(** The two chunks share no address. *)
Definition disjoint (a b : Chunk) : Prop :=
  chunkEnd a <= address b \/ chunkEnd b <= address a.

(** The two chunks share an address or are adjacent. *)
Definition touchOrOverlap (a b : Chunk) : bool :=
  (address a <=? chunkEnd b) && (address b <=? chunkEnd a).

(** No two elements of the list touch or overlap. *)
Fixpoint noneTouching (l : list Chunk) : bool :=
  match l with
  | [] => true
  | e :: rest =>
      forallb (fun d => negb (touchOrOverlap e d)) rest && noneTouching rest
  end.

(** The list holds valid chunks in descending address order, each
    ending strictly below the start of the one before it, the first
    strictly below [hi]. *)
Fixpoint descending (hi : Z) (l : list Chunk) : Prop :=
  match l with
  | [] => True
  | e :: rest => valid e /\ chunkEnd e < hi /\ descending (address e) rest
  end.

(** A sequence of data chunks in which every chunk is valid, shares no
    address with an earlier one, and, unless it is the first, does not
    lie wholly below every earlier chunk without touching one. *)
Definition orderly (cs : list Chunk) : Prop :=
  forall pre c post, cs = pre ++ c :: post ->
    valid c
    /\ (forall d, In d pre -> disjoint c d)
    /\ (pre = [] \/ exists d, In d pre /\ address d <= chunkEnd c).

(** The same, as a test on the sequence that follows the chunks [seen]. *)
Definition validb (c : Chunk) : bool :=
  (0 <=? address c) && (0 <? csize c) && (chunkEnd c <? UINT_MODULUS).

Definition disjointb (a b : Chunk) : bool :=
  (chunkEnd a <=? address b) || (chunkEnd b <=? address a).

Fixpoint orderlyFrom (seen cs : list Chunk) : bool :=
  match cs with
  | [] => true
  | c :: rest =>
      validb c
      && forallb (disjointb c) seen
      && match seen with
         | [] => true
         | _ => existsb (fun d => address d <=? chunkEnd c) seen
         end
      && orderlyFrom (seen ++ [c]) rest
  end.

(** *** The extent of the scan *)



(** How many chunks of the list overlap the new chunk. *)
Definition overlapCount (chunk : Chunk) (l : list Chunk) : Z :=
  Z.of_nat (List.length (filter (overlapping chunk) l)).

(** *** Defined outcomes *)

(** The outcome is a value or a thrown error: no span was read outside
    its extent and no loop of the model ran out of iterations. *)
Definition defined {A : Type} (o : outcome A) : Prop :=
  match o with
  | Ok _ | Throw _ => True
  | OutOfBounds | OutOfFuel => False
  end.

(** *** Further notions: records *)

(** The payload size that a record type admits: any for a data record,
    none at all for a type outside 0..5. *)
Definition acceptable (line : list ascii) : bool :=
  let n := byteCount line in
  let t := typeField line in
  if t =? typeData then true
  else if t =? typeEof then n =? 0
  else if (t =? typeEsa) || (t =? typeEla) then n =? 2
  else if (t =? typeSsa) || (t =? typeSla) then n =? 4
  else false.

(** A record that the loop body accepts. *)
Definition validRecord (line : list ascii) : bool :=
  wellFramed line && (byteSum line =? 0) && acceptable line.

(** The state after an EOF record. *)
Definition withEof (st : State) : State :=
  {| chunks := chunks st; numOverlapping := numOverlapping st;
     baseAddress := baseAddress st; foundEof := true;
     numStartAddresses := numStartAddresses st;
     startAddress := startAddress st;
     numDataRecords := numDataRecords st;
     maxDataSize := maxDataSize st; iLine := iLine st |}.

(** The state after a start-address record has set [start]. *)
Definition withStartAddress (st : State) (start : Z) : State :=
  {| chunks := chunks st; numOverlapping := numOverlapping st;
     baseAddress := baseAddress st; foundEof := foundEof st;
     numStartAddresses := wrap (numStartAddresses st + 1);
     startAddress := start;
     numDataRecords := numDataRecords st;
     maxDataSize := maxDataSize st; iLine := iLine st |}.

(** The two halves of a 4-byte payload: characters [9, 13) and
    [13, 17). *)
Definition csField (line : list ascii) : Z :=
  hexValue (firstn 4 (skipn 9 line)).

Definition ipField (line : list ascii) : Z :=
  hexValue (firstn 4 (skipn 13 line)).

(** The lines of the input with a given record type. *)
Definition linesOfType (t : recordType_t) (input : list (list ascii))
  : list (list ascii) :=
  filter (fun line => typeField line =? t) input.

(** *** Further notions: chunks *)

(** The sizes of the chunks of a list, added up. *)
Definition totalSize (l : list Chunk) : Z :=
  fold_right (fun e s => csize e + s) 0 l.

(** Each chunk of the run starts where the one before it ends, the
    first at [a]. *)
Fixpoint contiguousFrom (a : Z) (cs : list Chunk) : Prop :=
  match cs with
  | [] => True
  | c :: rest =>
      address c = a /\ 0 < csize c /\ contiguousFrom (a + csize c) rest
  end.

(** Segment lines in ascending address order, each starting strictly
    above the end of the one before it, the first at or above [lo]. *)
Fixpoint ascendingSegments (lo : Z) (out : list outputLine) : Prop :=
  match out with
  | [] => True
  | Segment a s :: rest => lo <= a /\ 0 < s /\ ascendingSegments (a + s + 1) rest
  | _ :: _ => False
  end.

(** *** Further notions: the effect of a record *)

(** The state that an acceptable record leaves, before the line counter
    moves on. *)
Definition recordEffect (st : State) (line : list ascii) : State :=
  let t := typeField line in
  if t =? typeEof then withEof st
  else if t =? typeEsa then
    withBaseAddress st (Z.shiftl (hexValue (payloadSpan line)) 4)
  else if t =? typeSsa then
    withStartAddress st (csField line * 16 + ipField line)
  else if t =? typeEla then
    withBaseAddress st (Z.shiftl (hexValue (payloadSpan line)) 16)
  else if t =? typeSla then
    withStartAddress st (hexValue (payloadSpan line))
  else
    withData st (mkChunk (wrap (baseAddress st + rawAddress line))
                   (byteCount line)).

(** The error that a record which is not valid raises. *)
Definition recordError (line : list ascii) : error :=
  if wellFramed line then
    if byteSum line =? 0 then FormatError else IncorrectChecksum
  else FormatError.

(** The payload sizes of the data records of the input, added up, and
    the largest of them. *)
Definition dataBytes (input : list (list ascii)) : Z :=
  fold_right Z.add 0 (map byteCount (linesOfType typeData input)).

Definition largestData (input : list (list ascii)) : Z :=
  fold_right Z.max 0 (map byteCount (linesOfType typeData input)).

(** An EOF record, if there is one, is the last line. *)
Fixpoint eofOnlyLast (input : list (list ascii)) : Prop :=
  match input with
  | [] => True
  | line :: rest => (typeField line = typeEof -> rest = []) /\ eofOnlyLast rest
  end.

(** The last line of the input is an EOF record. *)
Definition endsWithEof (input : list (list ascii)) : Prop :=
  exists pre line, input = pre ++ [line] /\ typeField line = typeEof.

(** No chunk of the sequence shares an address with a chunk of [seen] or
    with an earlier chunk of the sequence. *)
Fixpoint noOverlapFrom (seen cs : list Chunk) : Prop :=
  match cs with
  | [] => True
  | c :: rest => Forall (disjoint c) seen /\ noOverlapFrom (c :: seen) rest
  end.

(** The start-address records of the input (types 3 and 5). *)
Definition startLines (input : list (list ascii)) : list (list ascii) :=
  filter (fun line => (typeField line =? typeSsa) || (typeField line =? typeSla))
    input.

(* ================================================================== *)
(** * Properties *)

(** ** Machine arithmetic *)

Lemma UINT_MODULUS_eq : UINT_MODULUS = 4294967296.
Proof. reflexivity. Qed.

Lemma wrap_small (x : Z) : 0 <= x < 4294967296 -> wrap x = x.
Proof. intros H. unfold wrap. rewrite UINT_MODULUS_eq. now apply Z.mod_small. Qed.

Lemma wrap_range (x : Z) : 0 <= wrap x < 4294967296.
Proof.
  unfold wrap. rewrite UINT_MODULUS_eq. apply Z.mod_pos_bound. lia.
Qed.

(** ** The hex-digit decoder *)

Lemma isxdigit_hexDigit (c : ascii) :
  isxdigit c = true <-> hexDigit c <> None.
Proof.
  destruct c as [[] [] [] [] [] [] [] []]; vm_compute;
    split; intros H; try discriminate; try reflexivity;
    try (exfalso; apply H; reflexivity).
Qed.

Lemma isxdigit_false_hexDigit (c : ascii) :
  isxdigit c = false <-> hexDigit c = None.
Proof.
  destruct c as [[] [] [] [] [] [] [] []]; vm_compute;
    split; intros H; try discriminate; reflexivity.
Qed.

(** The digit arithmetic of the loop computes the digit's value. *)
Lemma digit_arith (c : ascii) :
  isxdigit c = true ->
  (let d := tolower (code c) in if d >=? 97 then d - 97 + 10 else d - 48)
  = digitValue c.
Proof.
  destruct c as [[] [] [] [] [] [] [] []]; vm_compute;
    intros H; try discriminate; reflexivity.
Qed.

Lemma digitValue_range (c : ascii) : 0 <= digitValue c <= 15.
Proof.
  destruct c as [[] [] [] [] [] [] [] []]; vm_compute;
    split; intros H; discriminate.
Qed.

Lemma fromHex_loop_bad (hex : list ascii) :
  (exists c, In c hex /\ hexDigit c = None) ->
  forall n, fromHex_loop hex n = Throw FormatError.
Proof.
  induction hex as [|d rest IH]; intros [c [Hin Hc]] n.
  - destruct Hin.
  - simpl. destruct (isxdigit d) eqn:Hd; simpl; [|reflexivity].
    destruct Hin as [->|Hin].
    + apply isxdigit_hexDigit in Hd. contradiction.
    + apply IH. now exists c.
Qed.

Lemma fromHex_loop_good (hex : list ascii) :
  (forall c, In c hex -> hexDigit c <> None) ->
  forall n, 0 <= n ->
    (n + 1) * 16 ^ size hex <= 4294967296 ->
    fromHex_loop hex n = Ok (n * 16 ^ size hex + hexValue hex).
Proof.
  unfold size, hexValue.
  induction hex as [|d rest IH]; intros Hall n Hn Hb.
  - simpl. f_equal. lia.
  - assert (Hd : isxdigit d = true)
      by (apply isxdigit_hexDigit, Hall; now left).
    cbn [fromHex_loop]. rewrite Hd. cbn [negb].
    pose proof (digit_arith d Hd) as Hda. cbv zeta in Hda. rewrite Hda.
    pose proof (digitValue_range d) as Hr.
    cbn [List.length map bigEndian] in *.
    rewrite Nat2Z.inj_succ, Z.pow_succ_r in * by lia.
    set (p := 16 ^ Z.of_nat (List.length rest)) in *.
    assert (Hp : 0 < p) by (apply Z.pow_pos_nonneg; lia).
    assert (Hw : 0 <= n * 16 + digitValue d < 4294967296) by nia.
    rewrite (wrap_small _ Hw).
    rewrite IH.
    + rewrite length_map. fold p. f_equal. ring.
    + intros c Hc. apply Hall. now right.
    + lia.
    + nia.
Qed.

(** ** C6 *)

(** C6. For every character sequence given to [fromHex]: if its length
    exceeds the capacity ([2 * sizeof(unsigned)] digits) the result is the
    "Number too large" error whatever the characters are; otherwise it is
    the format error exactly when some character is not an ASCII hex
    digit; otherwise it is the big-endian hexadecimal value of the
    sequence. *)
Theorem fromHex_contract (hex : list ascii) :
  (size hex > capacity -> fromHex hex = Throw NumberTooLarge)
  /\ (size hex <= capacity ->
      (fromHex hex = Throw FormatError
       <-> exists c, In c hex /\ hexDigit c = None))
  /\ (size hex <= capacity ->
      (forall c, In c hex -> hexDigit c <> None) ->
      fromHex hex = Ok (hexValue hex)).
Proof.
  unfold fromHex, capacity.
  assert (Hgood : size hex <= 2 * sizeof_unsigned ->
                  (forall c, In c hex -> hexDigit c <> None) ->
                  fromHex_loop hex 0 = Ok (hexValue hex)).
  { intros Hle Hall.
    rewrite (fromHex_loop_good hex Hall 0); [f_equal; lia | lia |].
    assert (0 <= size hex) by (unfold size; lia).
    change (2 * sizeof_unsigned) with 8 in Hle.
    change 4294967296 with (16 ^ 8).
    rewrite Z.add_0_l, Z.mul_1_l.
    apply Z.pow_le_mono_r; lia. }
  repeat split.
  - intros Hgt. destruct (size hex >? 2 * sizeof_unsigned) eqn:E;
      [reflexivity | lia].
  - destruct (size hex >? 2 * sizeof_unsigned) eqn:E; [lia|].
    intros Hthrow.
    destruct (existsb (fun c => negb (isxdigit c)) hex) eqn:Ex.
    + apply existsb_exists in Ex. destruct Ex as [c [Hin Hc]].
      exists c. split; [assumption|].
      apply isxdigit_false_hexDigit. now apply negb_true_iff.
    + exfalso. rewrite Hgood in Hthrow; [discriminate | assumption |].
      intros c Hin. apply isxdigit_hexDigit.
      destruct (isxdigit c) eqn:Hc; [reflexivity|].
      assert (existsb (fun c => negb (isxdigit c)) hex = true)
        by (apply existsb_exists; exists c; rewrite Hc; auto).
      congruence.
  - destruct (size hex >? 2 * sizeof_unsigned) eqn:E; [lia|].
    intros Hex. now apply fromHex_loop_bad.
  - destruct (size hex >? 2 * sizeof_unsigned) eqn:E; [lia|].
    intros Hall. now apply Hgood.
Qed.

Lemma fromHex_contract_witness :
  let long := list_ascii_of_string "zzzzzzzzz" in
  let bad := list_ascii_of_string "12g4" in
  let good := list_ascii_of_string "1fAb" in
  fromHex long = Throw NumberTooLarge
  /\ fromHex bad = Throw FormatError
  /\ fromHex good = Ok 8107.
Proof.
  cbv zeta. split; [|split].
  - apply (proj1 (fromHex_contract _)). vm_compute. reflexivity.
  - apply (proj1 (proj2 (fromHex_contract _))).
    + vm_compute. discriminate.
    + exists "g"%char. split; [vm_compute; tauto | reflexivity].
  - change 8107 with (hexValue (list_ascii_of_string "1fAb")).
    apply (proj2 (proj2 (fromHex_contract _))).
    + vm_compute. discriminate.
    + intros c Hin. vm_compute in Hin.
      repeat (destruct Hin as [<-|Hin]; [vm_compute; discriminate|]).
      destruct Hin.
Defined.

(** ** The record parser *)

Lemma isHexDigit_isxdigit (c : ascii) : isHexDigit c = isxdigit c.
Proof. destruct c as [[] [] [] [] [] [] [] []]; reflexivity. Qed.

Lemma forallb_isHexDigit (s : list ascii) :
  forallb isHexDigit s = forallb isxdigit s.
Proof.
  induction s as [|c s IH]; simpl; [reflexivity|].
  now rewrite isHexDigit_isxdigit, IH.
Qed.

Lemma bigEndian_range (ds : list Z) :
  Forall (fun d => 0 <= d <= 15) ds ->
  0 <= bigEndian ds < 16 ^ Z.of_nat (List.length ds).
Proof.
  induction 1 as [|d ds Hd _ IH]; cbn [bigEndian List.length].
  - simpl. lia.
  - rewrite Nat2Z.inj_succ, Z.pow_succ_r by lia.
    set (p := 16 ^ Z.of_nat (List.length ds)) in *. nia.
Qed.

Lemma hexValue_range (s : list ascii) :
  0 <= hexValue s < 16 ^ size s.
Proof.
  unfold hexValue, size.
  rewrite <- (length_map digitValue s).
  apply bigEndian_range, Forall_forall.
  intros d Hd. apply in_map_iff in Hd. destruct Hd as [c [<- _]].
  apply digitValue_range.
Qed.

Lemma size_nonneg (s : list ascii) : 0 <= size s.
Proof. unfold size. lia. Qed.

(** [fromHex] on a span within the capacity, in closed form. *)
Lemma fromHex_small (hex : list ascii) :
  size hex <= capacity ->
  fromHex hex
  = if forallb isxdigit hex then Ok (hexValue hex) else Throw FormatError.
Proof.
  intros Hle. unfold fromHex. change capacity with 8 in Hle.
  change (2 * sizeof_unsigned) with 8.
  destruct (size hex >? 8) eqn:E; [lia|].
  destruct (forallb isxdigit hex) eqn:F.
  - rewrite (fromHex_loop_good hex); [f_equal; lia | | lia |].
    + intros c Hin. apply isxdigit_hexDigit.
      rewrite forallb_forall in F. now apply F.
    + pose proof (size_nonneg hex).
      change 4294967296 with (16 ^ 8). rewrite Z.add_0_l, Z.mul_1_l.
      apply Z.pow_le_mono_r; lia.
  - apply fromHex_loop_bad.
    destruct (existsb (fun c => negb (isxdigit c)) hex) eqn:Ex.
    + apply existsb_exists in Ex. destruct Ex as [c [Hin Hc]].
      exists c. split; [assumption|].
      apply isxdigit_false_hexDigit. now apply negb_true_iff.
    + exfalso. assert (forallb isxdigit hex = true); [|congruence].
      apply forallb_forall. intros c Hin.
      destruct (isxdigit c) eqn:Hc; [reflexivity|].
      assert (existsb (fun c => negb (isxdigit c)) hex = true)
        by (apply existsb_exists; exists c; rewrite Hc; auto).
      congruence.
Qed.

Lemma subspan_ok (offset count : Z) (s : list ascii) :
  0 <= offset -> 0 <= count -> offset + count <= size s ->
  subspan offset count s
  = Ok (firstn (Z.to_nat count) (skipn (Z.to_nat offset) s)).
Proof.
  intros Ho Hc Hs. unfold subspan.
  destruct (0 <=? offset) eqn:E1; [|lia].
  destruct (0 <=? count) eqn:E2; [|lia].
  destruct (offset + count <=? size s) eqn:E3; [|lia].
  reflexivity.
Qed.

Lemma size_app (a b : list ascii) : size (a ++ b) = size a + size b.
Proof. unfold size. rewrite length_app. lia. Qed.

Lemma size_cons (c : ascii) (s : list ascii) : size (c :: s) = 1 + size s.
Proof. unfold size. cbn [List.length]. lia. Qed.

Lemma skipn_size_app (pre suf : list ascii) :
  skipn (Z.to_nat (size pre)) (pre ++ suf) = suf.
Proof.
  unfold size. rewrite Nat2Z.id.
  rewrite skipn_app, skipn_all, Nat.sub_diag. reflexivity.
Qed.

(** The checksum loop in closed form: from position [size pre] it either
    meets a group that is not hexadecimal, or adds every remaining group
    into the running 8-bit sum. *)
Lemma checksumLoop_closed (fuel : nat) :
  forall (pre suf : list ascii) (cs : Z),
    (List.length suf < fuel)%nat ->
    size (pre ++ suf) < 4294967290 ->
    0 <= cs < 256 ->
    checksumLoop fuel (pre ++ suf) (size pre) cs
    = if forallb isxdigit (List.concat (groups suf))
      then Ok ((cs + fold_right Z.add 0 (map hexValue (groups suf))) mod 256)
      else Throw FormatError.
Proof.
  induction fuel as [|fuel IH]; intros pre suf cs Hfuel Hsz Hcs; [lia|].
  cbn [checksumLoop].
  pose proof (size_nonneg pre) as Hpre.
  destruct suf as [|a [|b rest]].
  - rewrite app_nil_r.
    destruct (size pre <? size pre - 1) eqn:E; [lia|].
    simpl. f_equal. rewrite Z.add_0_r. symmetry. now apply Z.mod_small.
  - rewrite size_app, size_cons. change (size []) with 0.
    destruct (size pre <? size pre + (1 + 0) - 1) eqn:E; [lia|].
    simpl. f_equal. rewrite Z.add_0_r. symmetry. now apply Z.mod_small.
  - rewrite size_app in *. rewrite !size_cons in *.
    pose proof (size_nonneg rest) as Hrest.
    destruct (size pre <? size pre + (1 + (1 + size rest)) - 1) eqn:E; [|lia].
    rewrite subspan_ok; [| lia | lia | rewrite size_app, !size_cons; lia].
    rewrite skipn_size_app. change (Z.to_nat 2) with 2%nat. cbn [firstn bind].
    rewrite fromHex_small by (vm_compute; discriminate).
    cbn [groups List.concat app forallb bind map fold_right].
    destruct (isxdigit a); cbn [andb]; [|reflexivity].
    destruct (isxdigit b); cbn [andb]; [|reflexivity].
    cbn [bind].
    pose proof (hexValue_range [a; b]) as Hv.
    change (16 ^ size [a; b]) with 256 in Hv.
    rewrite (wrap_small (size pre + 2)) by lia.
    rewrite (wrap_small (cs + hexValue [a; b])) by lia.
    unfold wrap8.
    replace (pre ++ a :: b :: rest) with ((pre ++ [a; b]) ++ rest)
      by (rewrite <- app_assoc; reflexivity).
    replace (size pre + 2) with (size (pre ++ [a; b]))
      by (rewrite size_app; reflexivity).
    rewrite IH.
    + destruct (forallb isxdigit (List.concat (groups rest))); [|reflexivity].
      f_equal. rewrite Z.add_mod_idemp_l by lia. f_equal. lia.
    + cbn [List.length] in Hfuel. lia.
    + rewrite !size_app. change (size [a; b]) with 2. lia.
    + apply Z.mod_pos_bound. lia.
Qed.

(** On a run of even length the groups cover every character. *)
Lemma concat_groups_even (s : list ascii) :
  Nat.even (List.length s) = true -> List.concat (groups s) = s.
Proof.
  revert s. fix IH 1. intros [|a [|b rest]] H.
  - reflexivity.
  - discriminate.
  - cbn [groups List.concat app]. f_equal. f_equal. apply IH. exact H.
Qed.

Lemma byteCount_range (line : list ascii) : 0 <= byteCount line <= 255.
Proof.
  unfold byteCount.
  pose proof (hexValue_range (firstn 2 (skipn 1 line))) as H.
  assert (Hs : size (firstn 2 (skipn 1 line)) <= 2).
  { unfold size. rewrite length_firstn. lia. }
  assert (16 ^ size (firstn 2 (skipn 1 line)) <= 16 ^ 2)
    by (apply Z.pow_le_mono_r; lia).
  change (16 ^ 2) with 256 in *. lia.
Qed.

(** What a correctly framed line looks like. *)
Lemma wellFramed_inv (line : list ascii) :
  wellFramed line = true ->
  exists rest,
    line = ":"%char :: rest
    /\ forallb isxdigit rest = true
    /\ size line = 11 + 2 * byteCount line.
Proof.
  destruct line as [|c rest]; [discriminate|].
  unfold wellFramed. intros H.
  apply andb_prop in H. destruct H as [H H3].
  apply andb_prop in H. destruct H as [H1 H2].
  apply Ascii.eqb_eq in H1. subst c.
  exists rest. repeat split.
  - now rewrite <- forallb_isHexDigit.
  - now apply Z.eqb_eq.
Qed.

Lemma wellFramed_intro (rest : list ascii) :
  forallb isxdigit rest = true ->
  size (":"%char :: rest) = 11 + 2 * byteCount (":"%char :: rest) ->
  wellFramed (":"%char :: rest) = true.
Proof.
  intros H1 H2. unfold wellFramed.
  rewrite forallb_isHexDigit, H1, Ascii.eqb_refl.
  apply Z.eqb_eq in H2. now rewrite H2.
Qed.

Ltac not_framed :=
  match goal with
  | |- _ = if wellFramed ?l then _ else _ =>
      let W := fresh "W" in
      destruct (wellFramed l) eqn:W; [exfalso | reflexivity];
      apply wellFramed_inv in W;
      destruct W as [? [W1 [W2 W3]]]
  end.

(** The parsing part of the loop body in closed form: a line that is not
    correctly framed is a format error; a correctly framed line is a
    checksum error unless its bytes sum to 0 modulo 256, in which case
    the fields are handed on. *)
Theorem parseLine_closed (baseAddress : Z) (line : list ascii) :
  parseLine baseAddress line
  = if wellFramed line then
      if byteSum line =? 0 then Ok (fieldsOf baseAddress line)
      else Throw IncorrectChecksum
    else Throw FormatError.
Proof.
  unfold parseLine.
  pose proof (byteCount_range line) as HN.
  change minLineSize with 11. change maxLineSize with 521.
  change dataOffset with 9.
  destruct (size line <? 11) eqn:E1; cbn [throwIf bind].
  { not_framed. lia. }
  destruct (size line >? 521) eqn:E2; cbn [throwIf bind].
  { not_framed. lia. }
  destruct line as [|c0 [|c1 [|c2 [|a1 [|a2 [|a3 [|a4 [|t1 [|t2 tail]]]]]]]]];
    try (vm_compute in E1; discriminate).
  cbn [front bind].
  destruct (Ascii.eqb c0 ":") eqn:E3; cbn [negb throwIf bind].
  2:{ not_framed. injection W1 as -> _. now rewrite Ascii.eqb_refl in E3. }
  apply Ascii.eqb_eq in E3. subst c0.
  set (line := (":"%char :: c1 :: c2 :: a1 :: a2 :: a3 :: a4 :: t1 :: t2 :: tail)) in *.
  assert (Hsz : size line = 9 + size tail) by (unfold line; rewrite !size_cons; lia).
  pose proof (size_nonneg tail) as Htail.
  rewrite (subspan_ok 1 2) by lia.
  rewrite (subspan_ok 3 4) by lia.
  rewrite (subspan_ok 7 2) by lia.
  change (firstn (Z.to_nat 2) (skipn (Z.to_nat 1) line)) with [c1; c2].
  change (firstn (Z.to_nat 4) (skipn (Z.to_nat 3) line)) with [a1; a2; a3; a4].
  change (firstn (Z.to_nat 2) (skipn (Z.to_nat 7) line)) with [t1; t2].
  change (byteCount line) with (hexValue [c1; c2]) in HN.
  cbn [bind].
  rewrite (fromHex_small [c1; c2]) by (vm_compute; discriminate).
  rewrite (fromHex_small [a1; a2; a3; a4]) by (vm_compute; discriminate).
  rewrite (fromHex_small [t1; t2]) by (vm_compute; discriminate).
  destruct (forallb isxdigit [c1; c2]) eqn:F1; cbn [bind].
  2:{ not_framed. injection W1 as <-. cbn [forallb] in W2, F1.
      destruct (isxdigit c1); [|discriminate].
      destruct (isxdigit c2); discriminate. }
  rewrite (wrap_small (2 * hexValue [c1; c2])) by lia.
  rewrite (wrap_small (11 + 2 * hexValue [c1; c2])) by lia.
  destruct (size line =? 11 + 2 * hexValue [c1; c2]) eqn:E4;
    cbn [negb throwIf bind].
  2:{ not_framed. change (byteCount line) with (hexValue [c1; c2]) in W3. lia. }
  apply Z.eqb_eq in E4.
  destruct (forallb isxdigit [a1; a2; a3; a4]) eqn:F2; cbn [bind].
  2:{ not_framed. injection W1 as <-. cbn [forallb] in W2, F2.
      destruct (isxdigit c1); [|discriminate].
      destruct (isxdigit c2); [|discriminate].
      destruct (isxdigit a1); [|discriminate].
      destruct (isxdigit a2); [|discriminate].
      destruct (isxdigit a3); [|discriminate].
      destruct (isxdigit a4); discriminate. }
  destruct (forallb isxdigit [t1; t2]) eqn:F3; cbn [bind].
  2:{ not_framed. injection W1 as <-. cbn [forallb] in W2, F1, F2, F3.
      destruct (isxdigit c1); [|discriminate].
      destruct (isxdigit c2); [|discriminate].
      destruct (isxdigit a1); [|discriminate].
      destruct (isxdigit a2); [|discriminate].
      destruct (isxdigit a3); [|discriminate].
      destruct (isxdigit a4); [|discriminate].
      destruct (isxdigit t1); [|discriminate].
      destruct (isxdigit t2); discriminate. }
  rewrite (subspan_ok 9) by lia. cbn [bind].
  (* the checksum loop, from the character after the start code *)
  assert (Hloop :
    checksumLoop (List.length line) line 1 0
    = if forallb isxdigit (tl line) then Ok (byteSum line)
      else Throw FormatError).
  { change line with ([":"%char] ++ tl line) at 2.
    change 1 with (size [":"%char]) at 1.
    rewrite checksumLoop_closed.
    - rewrite concat_groups_even; [reflexivity|].
      apply Nat.even_spec. exists (Z.to_nat (5 + hexValue [c1; c2])).
      unfold size in E4. unfold line in *. cbn [List.length tl] in *. lia.
    - unfold line. cbn [tl List.length]. lia.
    - change ([":"%char] ++ tl line) with line. lia.
    - lia. }
  rewrite Hloop. clear Hloop.
  destruct (forallb isxdigit (tl line)) eqn:F4; cbn [bind].
  2:{ not_framed. injection W1 as <-. unfold line in F4. cbn [tl] in F4.
      congruence. }
  assert (W : wellFramed line = true).
  { apply (wellFramed_intro (tl line)); [exact F4|].
    change (":"%char :: tl line) with line.
    change (byteCount line) with (hexValue [c1; c2]). exact E4. }
  rewrite W.
  change (Z.to_nat 9) with 9%nat.
  destruct (byteSum line =? 0); cbn [negb throwIf bind]; reflexivity.
Qed.

(** ** C5 *)

(** C5. For every correctly framed line, the parser accepts the checksum
    exactly when the bytes from the byte-count field through the
    checksum byte sum to 0 modulo 256; with any other sum it raises the
    "Incorrect checksum" error, which is not the format error. *)
Theorem checksum_rule (baseAddress : Z) (line : list ascii) :
  wellFramed line = true ->
  ((exists f, parseLine baseAddress line = Ok f) <-> byteSum line = 0)
  /\ (byteSum line <> 0 ->
      parseLine baseAddress line = Throw IncorrectChecksum
      /\ parseLine baseAddress line <> Throw FormatError
      /\ what IncorrectChecksum = "Incorrect checksum"%string).
Proof.
  intros W. rewrite parseLine_closed, W. split.
  - destruct (byteSum line =? 0) eqn:E.
    + apply Z.eqb_eq in E. split; [intros _; exact E | intros _; eauto].
    + apply Z.eqb_neq in E. split; [intros [f Hf]; discriminate | contradiction].
  - intros Hne. apply Z.eqb_neq in Hne. rewrite Hne.
    repeat split. discriminate.
Qed.

Lemma checksum_rule_witness :
  (exists f, parseLine 0 (list_ascii_of_string ":00000001FF") = Ok f)
  /\ parseLine 0 (list_ascii_of_string ":0000000100") = Throw IncorrectChecksum.
Proof.
  split.
  - apply (proj1 (checksum_rule 0 (list_ascii_of_string ":00000001FF")
                    eq_refl)).
    vm_compute. reflexivity.
  - apply (proj2 (checksum_rule 0 (list_ascii_of_string ":0000000100")
                    eq_refl)).
    vm_compute. discriminate.
Defined.

(** ** C7 *)

(** C7. A line whose length is not exactly [11 + 2N], [N] being its
    byte-count field, makes the parser fail with the format error; the
    result is never an out-of-bounds read. In particular a line with
    byte count [02] that is shorter than [11 + 2 * 2] characters is a
    format error. The same holds of the whole loop body as long as no
    EOF record has been seen. *)
Theorem wrong_length_is_format_error (st : State) (line : list ascii) :
  size line <> 11 + 2 * byteCount line ->
  parseLine (baseAddress st) line = Throw FormatError
  /\ parseLine (baseAddress st) line <> OutOfBounds
  /\ (byteCount line = 2 -> size line < 15 ->
      parseLine (baseAddress st) line = Throw FormatError)
  /\ (foundEof st = false -> processLine st line = Throw FormatError).
Proof.
  intros Hlen.
  assert (W : wellFramed line = false).
  { destruct (wellFramed line) eqn:W; [|reflexivity].
    apply wellFramed_inv in W. destruct W as [rest [_ [_ W]]]. contradiction. }
  assert (P : parseLine (baseAddress st) line = Throw FormatError)
    by (rewrite parseLine_closed, W; reflexivity).
  repeat split.
  - exact P.
  - rewrite P. discriminate.
  - intros _ _. exact P.
  - intros Heof. unfold processLine. rewrite Heof, P. reflexivity.
Qed.

Lemma wrong_length_is_format_error_witness :
  parseLine 0 (list_ascii_of_string ":02000000AAFE") = Throw FormatError.
Proof.
  refine (proj1 (wrong_length_is_format_error initialState
                   (list_ascii_of_string ":02000000AAFE") _)).
  vm_compute. discriminate.
Defined.

(** ** The [switch] *)

Ltac case_switch H :=
  unfold handleRecord, bind, throwIf in H;
  repeat match type of H with
         | context [if ?b then _ else _] => destruct b eqn:?
         | context [match ?x with _ => _ end] => destruct x eqn:?
         end;
  try discriminate.

Lemma handleRecord_iLine (st st' : State) (line : list ascii) (f : Fields) :
  handleRecord st line f = Ok st' -> iLine st' = iLine st.
Proof.
  intros H. case_switch H; injection H as <-; reflexivity.
Qed.

Lemma handleRecord_eof (st st' : State) (line : list ascii) (f : Fields) :
  f_recordType f = typeEof ->
  handleRecord st line f = Ok st' -> foundEof st' = true.
Proof.
  intros Ht H. unfold handleRecord in H. rewrite Ht in H.
  cbn [Z.eqb typeEof Pos.eqb] in H.
  case_switch H. injection H as <-. reflexivity.
Qed.

Lemma forallb_firstn {A} (p : A -> bool) (n : nat) (l : list A) :
  forallb p l = true -> forallb p (firstn n l) = true.
Proof.
  revert l. induction n as [|n IH]; intros [|x l] H; try reflexivity.
  cbn [firstn forallb] in *. apply andb_prop in H. destruct H as [-> H].
  now rewrite IH.
Qed.

Lemma forallb_skipn {A} (p : A -> bool) (n : nat) (l : list A) :
  forallb p l = true -> forallb p (skipn n l) = true.
Proof.
  revert l. induction n as [|n IH]; intros [|x l] H; try reflexivity;
    try exact H.
  cbn [skipn forallb] in *. apply andb_prop in H. destruct H as [_ H].
  now apply IH.
Qed.

Lemma payloadSpan_hex (line : list ascii) :
  wellFramed line = true -> forallb isxdigit (payloadSpan line) = true.
Proof.
  intros W. apply wellFramed_inv in W. destruct W as [rest [-> [H _]]].
  unfold payloadSpan. change (skipn 9 (":"%char :: rest)) with (skipn 8 rest).
  now apply forallb_firstn, forallb_skipn.
Qed.

Lemma payloadSpan_size (line : list ascii) :
  size (payloadSpan line) <= 2 * byteCount line.
Proof.
  pose proof (byteCount_range line).
  unfold payloadSpan, size. rewrite length_firstn. lia.
Qed.

(** Decoding the payload of a correctly framed record of at most four
    bytes. *)
Lemma fromHex_payload (line : list ascii) :
  wellFramed line = true -> byteCount line <= 4 ->
  fromHex (payloadSpan line) = Ok (hexValue (payloadSpan line)).
Proof.
  intros W Hn. pose proof (payloadSpan_size line).
  rewrite fromHex_small by (change capacity with 8; lia).
  now rewrite payloadSpan_hex.
Qed.

Lemma payload16 (line : list ascii) :
  byteCount line = 2 -> 0 <= hexValue (payloadSpan line) < 65536.
Proof.
  intros Hn. pose proof (payloadSpan_size line) as Hs.
  pose proof (hexValue_range (payloadSpan line)) as Hv.
  pose proof (size_nonneg (payloadSpan line)).
  assert (16 ^ size (payloadSpan line) <= 16 ^ 4)
    by (apply Z.pow_le_mono_r; lia).
  change (16 ^ 4) with 65536 in *. lia.
Qed.

Lemma rawAddress_range (line : list ascii) : 0 <= rawAddress line < 65536.
Proof.
  unfold rawAddress.
  pose proof (hexValue_range (firstn 4 (skipn 3 line))) as Hv.
  assert (Hs : size (firstn 4 (skipn 3 line)) <= 4)
    by (unfold size; rewrite length_firstn; lia).
  pose proof (size_nonneg (firstn 4 (skipn 3 line))).
  assert (16 ^ size (firstn 4 (skipn 3 line)) <= 16 ^ 4)
    by (apply Z.pow_le_mono_r; lia).
  change (16 ^ 4) with 65536 in *. lia.
Qed.

(** The loop body on an accepted line. *)
Lemma processLine_Ok_inv (st st' : State) (line : list ascii) :
  processLine st line = Ok st' ->
  foundEof st = false
  /\ wellFramed line = true
  /\ byteSum line = 0
  /\ exists st1, handleRecord st line (fieldsOf (baseAddress st) line) = Ok st1
                 /\ st' = nextLine st1.
Proof.
  unfold processLine. intros H.
  destruct (foundEof st); [discriminate|]. cbn [throwIf bind] in H.
  rewrite parseLine_closed in H.
  destruct (wellFramed line); [|discriminate].
  destruct (byteSum line =? 0) eqn:E; [|discriminate].
  apply Z.eqb_eq in E. cbn [bind] in H.
  destruct (handleRecord st line (fieldsOf (baseAddress st) line)) as [st1| | |];
    try discriminate.
  injection H as <-. repeat split; try assumption. now exists st1.
Qed.

(** Every base address that the loop can hold lies below [0xFFFF << 16]. *)
Lemma processLine_base (st st' : State) (line : list ascii) :
  processLine st line = Ok st' ->
  0 <= baseAddress st <= maxBaseAddress ->
  0 <= baseAddress st' <= maxBaseAddress.
Proof.
  intros H Hb. apply processLine_Ok_inv in H.
  destruct H as [_ [W [_ [st1 [H ->]]]]].
  cbn [nextLine baseAddress].
  unfold handleRecord in H. cbn [fieldsOf f_dataSize f_recordType f_dataSpan] in H.
  assert (Hsh : forall v k, byteCount line = 2 -> (k = 4 \/ k = 16) ->
            fromHex (payloadSpan line) = Ok v ->
            0 <= wrap (Z.shiftl v k) <= maxBaseAddress).
  { intros v k Hn Hk Hv.
    rewrite fromHex_payload in Hv by (assumption || lia).
    injection Hv as <-. pose proof (payload16 line Hn) as Hr.
    rewrite Z.shiftl_mul_pow2 by lia. unfold maxBaseAddress.
    destruct Hk as [-> | ->].
    - change (2 ^ 4) with 16. rewrite wrap_small by lia. lia.
    - change (2 ^ 16) with 65536. rewrite wrap_small by lia. lia. }
  destruct (typeField line =? typeEof);
    [case_switch H; injection H as <-; exact Hb|].
  destruct (typeField line =? typeEsa).
  { destruct (byteCount line =? 2) eqn:E; [|discriminate].
    apply Z.eqb_eq in E. cbn [negb throwIf bind] in H.
    destruct (fromHex (payloadSpan line)) as [v| | |] eqn:Hv; try discriminate.
    injection H as <-. exact (Hsh v 4 E (or_introl eq_refl) eq_refl). }
  destruct (typeField line =? typeSsa);
    [case_switch H; injection H as <-; exact Hb|].
  destruct (typeField line =? typeEla).
  { destruct (byteCount line =? 2) eqn:E; [|discriminate].
    apply Z.eqb_eq in E. cbn [negb throwIf bind] in H.
    destruct (fromHex (payloadSpan line)) as [v| | |] eqn:Hv; try discriminate.
    injection H as <-. exact (Hsh v 16 E (or_intror eq_refl) eq_refl). }
  destruct (typeField line =? typeSla);
    [case_switch H; injection H as <-; exact Hb|].
  case_switch H; injection H as <-; exact Hb.
Qed.

Lemma runLines_base (input : list (list ascii)) :
  forall st st', runLines input st = Ok st' ->
    0 <= baseAddress st <= maxBaseAddress ->
    0 <= baseAddress st' <= maxBaseAddress.
Proof.
  induction input as [|l input IH]; intros st st' H Hb; cbn [runLines] in H.
  - injection H as <-. exact Hb.
  - destruct (processLine st l) as [st1| | |] eqn:E; try discriminate.
    cbn [bind] in H. apply (IH st1 st' H). exact (processLine_base _ _ _ E Hb).
Qed.

Lemma runLines_iLine (input : list (list ascii)) :
  forall st st', runLines input st = Ok st' ->
    iLine st' = wrap (iLine st + Z.of_nat (List.length input))
    \/ (input = [] /\ st' = st).
Proof.
  induction input as [|l input IH]; intros st st' H; cbn [runLines] in H.
  - right. injection H as <-. auto.
  - left. destruct (processLine st l) as [st1| | |] eqn:E; try discriminate.
    cbn [bind] in H. apply processLine_Ok_inv in E.
    destruct E as [_ [_ [_ [st2 [E ->]]]]].
    apply handleRecord_iLine in E.
    destruct (IH _ _ H) as [-> | [-> ->]]; cbn [nextLine iLine List.length].
    + rewrite E. unfold wrap. rewrite Z.add_mod_idemp_l by (vm_compute; discriminate).
      f_equal. lia.
    + rewrite E. f_equal.
Qed.

Lemma lineLoop_app (pre more : list (list ascii)) (ending : streamEnd) :
  forall st st', runLines pre st = Ok st' ->
    lineLoop (pre ++ more) ending st = lineLoop more ending st'.
Proof.
  induction pre as [|l pre IH]; intros st st' H; cbn [runLines] in H.
  - injection H as <-. reflexivity.
  - cbn [app lineLoop].
    destruct (processLine st l) as [st1| | |]; try discriminate.
    cbn [bind] in H. now apply IH.
Qed.

(** The loop body on a correctly framed line with a valid checksum. *)
Lemma processLine_valid (st : State) (line : list ascii) :
  foundEof st = false -> wellFramed line = true -> byteSum line = 0 ->
  processLine st line
  = (st' <- handleRecord st line (fieldsOf (baseAddress st) line) ;;
     Ok (nextLine st')).
Proof.
  intros Heof W Hsum. unfold processLine.
  rewrite Heof, parseLine_closed, W, Hsum. reflexivity.
Qed.

(** ** Absence of out-of-bounds reads *)

Lemma fromHex_defined (hex : list ascii) : defined (fromHex hex).
Proof.
  unfold fromHex. destruct (size hex >? 2 * sizeof_unsigned); [exact I|].
  generalize 0. induction hex as [|d rest IH]; intros n; cbn [fromHex_loop].
  - exact I.
  - destruct (isxdigit d); cbn [negb]; [apply IH | exact I].
Qed.

Lemma bind_defined {A B : Type} (m : outcome A) (k : A -> outcome B) :
  defined m -> (forall a, m = Ok a -> defined (k a)) -> defined (bind m k).
Proof.
  destruct m as [a| | |]; cbn [bind defined]; intros Hm Hk;
    try exact I; try contradiction. now apply Hk.
Qed.

Lemma throwIf_defined (cond : bool) (e : error) : defined (throwIf cond e).
Proof. destruct cond; exact I. Qed.

(** The [switch] reads no span outside the line. *)
Lemma handleRecord_defined (st : State) (line : list ascii) :
  wellFramed line = true ->
  defined (handleRecord st line (fieldsOf (baseAddress st) line)).
Proof.
  intros W. apply wellFramed_inv in W. destruct W as [rest [_ [_ Hsz]]].
  unfold handleRecord.
  cbn [fieldsOf f_dataSize f_recordType f_dataSpan f_address].
  destruct (typeField line =? typeEof).
  { apply bind_defined; [apply throwIf_defined | intros _ _; exact I]. }
  destruct (typeField line =? typeEsa).
  { apply bind_defined; [apply throwIf_defined | intros _ _].
    apply bind_defined; [apply fromHex_defined | intros v _; exact I]. }
  destruct (typeField line =? typeSsa).
  { (* start segment address: two spans of four characters *)
    destruct (byteCount line =? 4) eqn:E; cbn [negb throwIf bind]; [|exact I].
    apply Z.eqb_eq in E. change dataOffset with 9.
    rewrite (subspan_ok 9 4) by lia. cbn [bind].
    apply bind_defined; [apply fromHex_defined | intros cs _].
    rewrite (subspan_ok (9 + 4) 4) by lia. cbn [bind].
    apply bind_defined; [apply fromHex_defined | intros ip _]. exact I. }
  destruct (typeField line =? typeEla).
  { apply bind_defined; [apply throwIf_defined | intros _ _].
    apply bind_defined; [apply fromHex_defined | intros v _; exact I]. }
  destruct (typeField line =? typeSla).
  { apply bind_defined; [apply throwIf_defined | intros _ _].
    apply bind_defined; [apply fromHex_defined | intros v _; exact I]. }
  destruct (typeField line =? typeData); [|exact I].
  destruct (addChunk _ (chunks st) (numOverlapping st)). exact I.
Qed.

(** Every iteration of the line loop ends in a new state or in a thrown
    error. *)
Theorem processLine_defined (st : State) (line : list ascii) :
  defined (processLine st line).
Proof.
  unfold processLine.
  destruct (foundEof st); cbn [throwIf bind]; [exact I|].
  rewrite parseLine_closed.
  destruct (wellFramed line) eqn:W; [|exact I].
  destruct (byteSum line =? 0); [|exact I]. cbn [bind].
  apply bind_defined; [now apply handleRecord_defined | intros ? _; exact I].
Qed.

Lemma lineLoop_defined (input : list (list ascii)) (ending : streamEnd) :
  forall st, lineLoop input ending st <> Undefined.
Proof.
  induction input as [|l input IH]; intros st; cbn [lineLoop].
  - destruct ending; discriminate.
  - pose proof (processLine_defined st l) as H.
    destruct (processLine st l); try contradiction; [apply IH | discriminate].
Qed.

(** X23. Whatever the input is, [processHexFile] reads no span outside
    its extent: it ends in the summary or in a reported failure. *)
Theorem processHexFile_defined (input : list (list ascii)) (ending : streamEnd) :
  processHexFile input ending <> Undefined.
Proof. apply lineLoop_defined. Qed.

(** ** C8 *)

(** C8. When the record on line [k] is an EOF record that the loop
    accepts and any further line follows, processing fails with
    "EOF record before end of file", reported for line [k + 1] (as the
    32-bit line counter holds it) together with the printable copy of
    that following line, whatever the line contains. *)
Theorem record_after_eof
  (pre : list (list ascii)) (eofLine next : list ascii)
  (rest : list (list ascii)) (ending : streamEnd) (st st' : State) :
  let k := Z.of_nat (List.length pre) + 1 in
  runLines pre initialState = Ok st ->
  typeField eofLine = typeEof ->
  processLine st eofLine = Ok st' ->
  processHexFile (pre ++ eofLine :: next :: rest) ending
  = Failed EofBeforeEnd (wrap (k + 1)) (makePrintable next)
  /\ (k + 1 < UINT_MODULUS -> wrap (k + 1) = k + 1)
  /\ what EofBeforeEnd = "EOF record before end of file"%string.
Proof.
  intros k Hpre Htype Hk. repeat split.
  - unfold processHexFile. rewrite (lineLoop_app _ _ _ _ _ Hpre).
    cbn [lineLoop]. rewrite Hk. cbn [lineLoop].
    assert (Hi : iLine st = wrap (Z.of_nat (List.length pre) + 1)).
    { destruct (runLines_iLine _ _ _ Hpre) as [-> | [-> ->]].
      - cbn [initialState iLine]. f_equal. lia.
      - reflexivity. }
    apply processLine_Ok_inv in Hk.
    destruct Hk as [_ [_ [_ [st1 [Hh ->]]]]].
    assert (He : foundEof (nextLine st1) = true).
    { cbn [nextLine foundEof].
      exact (handleRecord_eof st st1 eofLine
               (fieldsOf (baseAddress st) eofLine) Htype Hh). }
    unfold processLine. rewrite He. cbn [throwIf bind].
    f_equal. cbn [nextLine iLine].
    rewrite (handleRecord_iLine _ _ _ _ Hh), Hi. unfold wrap, k.
    rewrite Z.add_mod_idemp_l by (vm_compute; discriminate). reflexivity.
  - intros Hlt. apply wrap_small. rewrite <- UINT_MODULUS_eq. unfold k in *. lia.
Qed.

Lemma record_after_eof_witness :
  processHexFile
    [list_ascii_of_string ":0400100001020304E2";
     list_ascii_of_string ":00000001FF";
     list_ascii_of_string "anything"] CleanEof
  = Failed EofBeforeEnd 3 (list_ascii_of_string "anything").
Proof.
  refine (proj1 (record_after_eof
                   [list_ascii_of_string ":0400100001020304E2"]
                   (list_ascii_of_string ":00000001FF")
                   (list_ascii_of_string "anything") [] CleanEof
                   _ _ _ _ _)).
  - vm_compute. reflexivity.
  - vm_compute. reflexivity.
  - vm_compute. reflexivity.
Defined.

(** ** C9 *)

(** C9. In a state that the loop can reach and with no EOF record seen,
    on a correctly framed line with a valid checksum:
    an Extended Segment Address record is a format error unless its
    payload is exactly 2 bytes, and then only replaces the base address,
    by the 16-bit payload value shifted left 4 bits; an Extended Linear
    Address record likewise with a shift of 16 bits; a data record
    contributes the chunk whose address is the current base address plus
    its 16-bit address field. Address records leave the chunks recorded
    so far as they are. *)
Theorem address_records
  (pre : list (list ascii)) (st : State) (line : list ascii) :
  runLines pre initialState = Ok st ->
  foundEof st = false ->
  wellFramed line = true ->
  byteSum line = 0 ->
  (typeField line = typeEsa ->
     (byteCount line <> 2 -> processLine st line = Throw FormatError)
     /\ (byteCount line = 2 ->
         0 <= hexValue (payloadSpan line) < 65536
         /\ processLine st line
            = Ok (nextLine
                    (withBaseAddress st
                       (Z.shiftl (hexValue (payloadSpan line)) 4)))))
  /\ (typeField line = typeEla ->
     (byteCount line <> 2 -> processLine st line = Throw FormatError)
     /\ (byteCount line = 2 ->
         0 <= hexValue (payloadSpan line) < 65536
         /\ processLine st line
            = Ok (nextLine
                    (withBaseAddress st
                       (Z.shiftl (hexValue (payloadSpan line)) 16)))))
  /\ (typeField line = typeData ->
      0 <= rawAddress line < 65536
      /\ processLine st line
         = Ok (nextLine
                 (withData st
                    (mkChunk (baseAddress st + rawAddress line)
                       (byteCount line))))).
Proof.
  intros Hpre Heof W Hsum.
  assert (Hb : 0 <= baseAddress st <= maxBaseAddress).
  { apply (runLines_base _ _ _ Hpre). vm_compute. split; discriminate. }
  rewrite (processLine_valid st line Heof W Hsum).
  unfold handleRecord.
  cbn [fieldsOf f_dataSize f_recordType f_dataSpan f_address].
  assert (Hsh : forall k, byteCount line = 2 -> (k = 4 \/ k = 16) ->
            wrap (Z.shiftl (hexValue (payloadSpan line)) k)
            = Z.shiftl (hexValue (payloadSpan line)) k).
  { intros k Hn Hk. pose proof (payload16 line Hn) as Hr.
    rewrite Z.shiftl_mul_pow2 by lia.
    destruct Hk as [-> | ->].
    - change (2 ^ 4) with 16. apply wrap_small. lia.
    - change (2 ^ 16) with 65536. apply wrap_small. lia. }
  split; [|split]; intros Ht; rewrite Ht; cbn [Z.eqb Pos.eqb typeEof typeEsa
    typeSsa typeEla typeSla typeData].
  - split; intros Hn.
    + apply Z.eqb_neq in Hn. rewrite Hn. reflexivity.
    + split; [now apply payload16|].
      rewrite fromHex_payload by (assumption || lia).
      rewrite Hn. cbn [Z.eqb Pos.eqb negb throwIf bind].
      rewrite (Hsh 4 Hn (or_introl eq_refl)). reflexivity.
  - split; intros Hn.
    + apply Z.eqb_neq in Hn. rewrite Hn. reflexivity.
    + split; [now apply payload16|].
      rewrite fromHex_payload by (assumption || lia).
      rewrite Hn. cbn [Z.eqb Pos.eqb negb throwIf bind].
      rewrite (Hsh 16 Hn (or_intror eq_refl)). reflexivity.
  - pose proof (rawAddress_range line) as Hr. split; [exact Hr|].
    rewrite (wrap_small (baseAddress st + rawAddress line))
      by (unfold maxBaseAddress in Hb; lia).
    unfold withData. cbn [csize].
    destruct (addChunk _ (chunks st) (numOverlapping st)) as [cs n].
    reflexivity.
Qed.

Lemma address_records_witness :
  let ela := list_ascii_of_string ":020000040800F2" in
  let data := list_ascii_of_string ":0400100001020304E2" in
  (exists st, runLines [ela] initialState = Ok st
     /\ baseAddress st = 134217728
     /\ exists st', processLine st data = Ok st'
          /\ chunks st' = [mkChunk 134217744 4])
  /\ processLine initialState (list_ascii_of_string ":0100000200FD")
     = Throw FormatError.
Proof.
  cbv zeta. split.
  - eexists. split; [vm_compute; reflexivity|]. split; [reflexivity|].
    eexists. split.
    + refine (proj2 (proj2 (proj2 (address_records
               [list_ascii_of_string ":020000040800F2"] _
               (list_ascii_of_string ":0400100001020304E2")
               _ _ _ _)) _)).
      * vm_compute. reflexivity.
      * reflexivity.
      * vm_compute. reflexivity.
      * vm_compute. reflexivity.
      * vm_compute. reflexivity.
    + vm_compute. reflexivity.
  - refine (proj1 (proj1 (address_records [] initialState
              (list_ascii_of_string ":0100000200FD") _ _ _ _) _) _).
    + reflexivity.
    + reflexivity.
    + vm_compute. reflexivity.
    + vm_compute. reflexivity.
    + vm_compute. reflexivity.
    + vm_compute. discriminate.
Defined.

(** ** The chunk accumulator *)

Lemma valid_range (c : Chunk) :
  valid c -> 0 <= address c /\ 0 < csize c /\ address c + csize c < 4294967296.
Proof. unfold valid, chunkEnd. rewrite UINT_MODULUS_eq. tauto. Qed.

Lemma wrap_end (c : Chunk) : valid c -> wrap (address c + csize c) = chunkEnd c.
Proof.
  intros H. apply valid_range in H. unfold chunkEnd. apply wrap_small. lia.
Qed.

Lemma descending_weaken (l : list Chunk) (hi hi' : Z) :
  descending hi l -> hi <= hi' -> descending hi' l.
Proof.
  destruct l as [|e rest]; [trivial|]. cbn [descending].
  intros [Hv [He Hr]] Hle. split; [assumption|]. split; [lia | assumption].
Qed.

Lemma descending_cons (e : Chunk) (rest : list Chunk) (hi : Z) :
  valid e -> chunkEnd e < hi -> descending (address e) rest ->
  descending hi (e :: rest).
Proof. cbn [descending]. tauto. Qed.

Lemma descending_In (l : list Chunk) :
  forall hi e, descending hi l -> In e l -> valid e /\ chunkEnd e < hi.
Proof.
  induction l as [|a rest IH]; intros hi e Hd Hin; [destruct Hin|].
  cbn [descending] in Hd. destruct Hd as [Hv [He Hr]].
  destruct Hin as [<- | Hin]; [tauto|].
  destruct (IH _ _ Hr Hin) as [Hve Hee]. split; [assumption|].
  apply valid_range in Hv. unfold chunkEnd in *. lia.
Qed.


Lemma covered_cons (e : Chunk) (l : list Chunk) (x : Z) :
  covered (e :: l) x <-> covers e x \/ covered l x.
Proof.
  unfold covered. split.
  - intros [d [[<- | Hin] Hc]]; [now left | right; now exists d].
  - intros [Hc | [d [Hin Hc]]]; [exists e | exists d]; cbn [In]; auto.
Qed.

Lemma covered_nil (x : Z) : ~ covered [] x.
Proof. intros [d [[] _]]. Qed.

Lemma covered_app (l l' : list Chunk) (x : Z) :
  covered (l ++ l') x <-> covered l x \/ covered l' x.
Proof.
  unfold covered. split.
  - intros [d [Hin Hc]]. apply in_app_or in Hin.
    destruct Hin; [left | right]; now exists d.
  - intros [[d [Hin Hc]] | [d [Hin Hc]]]; exists d; split; auto using in_or_app.
Qed.

(** *** The scan over a descending collection *)

Section Scan.

Variable chunk : Chunk.
Hypothesis chunk_valid : valid chunk.

(** The tests of the scan, without the reduction modulo [2 ^ 32]. *)
Lemma overlapping_valid (it : Chunk) :
  valid it ->
  overlapping chunk it
  = (chunkEnd it >? address chunk) && (chunkEnd chunk >? address it).
Proof.
  intros Hv. unfold overlapping. now rewrite !wrap_end.
Qed.

Lemma overlapping_disjoint (it : Chunk) :
  valid it -> disjoint chunk it -> overlapping chunk it = false.
Proof.
  intros Hv Hd. rewrite overlapping_valid by assumption.
  unfold disjoint in Hd.
  destruct (chunkEnd it >? address chunk) eqn:E1; [|reflexivity].
  destruct (chunkEnd chunk >? address it) eqn:E2; [|reflexivity].
  lia.
Qed.

Lemma checkMergeChunk_valid (c it : Chunk) :
  valid c -> valid it ->
  checkMergeChunk c it
  = if chunkEnd it =? address c then
      (true, mkChunk (address it) (csize it + csize c))
    else if chunkEnd c =? address it then
      (true, mkChunk (address c) (csize it + csize c))
    else (false, it).
Proof.
  intros Hc Hi. unfold checkMergeChunk. rewrite !wrap_end by assumption.
  apply valid_range in Hc. apply valid_range in Hi. unfold chunkEnd.
  destruct (address it + csize it =? address c) eqn:E1.
  - rewrite wrap_small by lia. reflexivity.
  - destruct (address c + csize c =? address it) eqn:E2; [|reflexivity].
    rewrite wrap_small by lia. reflexivity.
Qed.

(** A chunk that ends above a descending list and neither touches nor
    overlaps its first element stays in front of it. *)
Lemma mergeFollowing_apart (cur : Chunk) (following : list Chunk) :
  valid cur -> descending (address cur) following ->
  mergeFollowing cur following = cur :: following.
Proof.
  intros Hv Hd. destruct following as [|next tl]; [reflexivity|].
  cbn [descending] in Hd. destruct Hd as [Hn [He _]].
  cbn [mergeFollowing]. rewrite checkMergeChunk_valid by assumption.
  apply valid_range in Hv. apply valid_range in Hn. unfold chunkEnd in *.
  destruct (address next + csize next =? address cur) eqn:E1; [lia|].
  destruct (address cur + csize cur =? address next) eqn:E2; [lia|].
  reflexivity.
Qed.

(** The scan on a descending collection none of whose chunks shares an
    address with the new one, and whose lowest chunk does not start
    above the new one's end: the chunk is added during the scan, the
    overlap counter is left alone, the collection stays descending, and
    it covers what it covered before and the new chunk. *)
Lemma scanChunks_descending (l : list Chunk) :
  forall hi n,
    descending hi l ->
    chunkEnd chunk < hi ->
    (forall e, In e l -> disjoint chunk e) ->
    (exists e, In e l /\ address e <= chunkEnd chunk) ->
    exists l',
      scanChunks chunk l n = (true, l', n)
      /\ descending hi l'
      /\ forall x, covered l' x <-> covered l x \/ covers chunk x.
Proof.
  induction l as [|it rest IH]; intros hi n Hd Hhi Hdis Hlow.
  { destruct Hlow as [e [[] _]]. }
  cbn [descending] in Hd. destruct Hd as [Hv [He Hr]].
  assert (Hdit : disjoint chunk it) by (apply Hdis; now left).
  cbn [scanChunks].
  rewrite (overlapping_disjoint it Hv Hdit).
  rewrite checkMergeChunk_valid by assumption.
  pose proof (valid_range _ chunk_valid) as Rc.
  pose proof (valid_range _ Hv) as Ri.
  unfold disjoint in Hdit. unfold chunkEnd in Hdit, He, Hhi.
  destruct (chunkEnd it =? address chunk) eqn:E1.
  - (* the chunk continues [it] upwards *)
    apply Z.eqb_eq in E1. unfold chunkEnd in E1.
    set (it' := mkChunk (address it) (csize it + csize chunk)).
    assert (Hv' : valid it').
    { unfold valid, chunkEnd, it'. cbn [address csize].
      rewrite UINT_MODULUS_eq. lia. }
    exists (it' :: rest). split; [|split].
    + rewrite mergeFollowing_apart; [reflexivity | exact Hv' | exact Hr].
    + apply descending_cons; [exact Hv' | | exact Hr].
      unfold chunkEnd, it'. cbn [address csize]. lia.
    + intros x. rewrite !covered_cons.
      unfold covers, chunkEnd, it'. cbn [address csize]. intuition lia.
  - apply Z.eqb_neq in E1. unfold chunkEnd in E1.
    destruct (chunkEnd chunk =? address it) eqn:E2.
    + (* the chunk continues [it] downwards *)
      apply Z.eqb_eq in E2. unfold chunkEnd in E2.
      set (it' := mkChunk (address chunk) (csize it + csize chunk)).
      assert (Hv' : valid it').
      { unfold valid, chunkEnd, it'. cbn [address csize].
        rewrite UINT_MODULUS_eq. lia. }
      destruct rest as [|next tl].
      * exists [it']. split; [reflexivity|]. split.
        -- apply descending_cons; [exact Hv' | | exact I].
           unfold chunkEnd, it'. cbn [address csize]. lia.
        -- intros x. rewrite !covered_cons.
           unfold covers, chunkEnd, it'. cbn [address csize]. intuition lia.
      * cbn [descending] in Hr. destruct Hr as [Hn [Hne Ht]].
        pose proof (valid_range _ Hn) as Rn. unfold chunkEnd in Hne.
        assert (Hdn : disjoint chunk next) by (apply Hdis; right; now left).
        unfold disjoint, chunkEnd in Hdn.
        cbn [mergeFollowing]. rewrite checkMergeChunk_valid by assumption.
        unfold chunkEnd, it'. cbn [address csize]. fold it'.
        destruct (address next + csize next =? address chunk) eqn:E3.
        -- (* ... and reaches the chunk below: the two become one *)
           apply Z.eqb_eq in E3.
           set (next' := mkChunk (address next)
                           (csize next + csize it')).
           exists (next' :: tl). split; [reflexivity|]. split.
           ++ apply descending_cons; [| | exact Ht].
              ** unfold valid, chunkEnd, next', it'. cbn [address csize].
                 rewrite UINT_MODULUS_eq. lia.
              ** unfold chunkEnd, next', it'. cbn [address csize]. lia.
           ++ intros x. rewrite !covered_cons.
              unfold covers, chunkEnd, next', it'. cbn [address csize].
              intuition lia.
        -- apply Z.eqb_neq in E3.
           destruct (address chunk + (csize it + csize chunk)
                     =? address next) eqn:E4; [lia|].
           exists (it' :: next :: tl). split; [reflexivity|]. split.
           ++ apply descending_cons; [exact Hv' | |].
              ** unfold chunkEnd, it'. cbn [address csize]. lia.
              ** apply descending_cons; [exact Hn | | exact Ht].
                 unfold chunkEnd, it'. cbn [address csize]. lia.
           ++ intros x. rewrite !covered_cons.
              unfold covers, chunkEnd, it'. cbn [address csize].
              intuition lia.
    + apply Z.eqb_neq in E2. unfold chunkEnd in E2.
      destruct (address chunk >=? address it) eqn:E3.
      * (* the chunk goes in front of [it] *)
        exists (chunk :: it :: rest). split; [|split].
        -- rewrite mergeFollowing_apart; [reflexivity | exact chunk_valid |].
           apply descending_cons; [exact Hv | | exact Hr].
           unfold chunkEnd. lia.
        -- apply descending_cons; [exact chunk_valid | unfold chunkEnd; lia |].
           apply descending_cons; [exact Hv | | exact Hr].
           unfold chunkEnd. lia.
        -- intros x. rewrite !covered_cons. tauto.
      * (* the chunk lies below [it]: the scan goes on *)
        destruct (IH (address it) n Hr) as [rest' [Hs [Hd' Hc']]].
        -- unfold chunkEnd. lia.
        -- intros e Hin. apply Hdis. now right.
        -- destruct Hlow as [e [[<- | Hin] Hle]].
           ++ unfold chunkEnd in Hle. lia.
           ++ now exists e.
        -- exists (it :: rest'). rewrite Hs. split; [reflexivity|]. split.
           ++ apply descending_cons; [exact Hv | unfold chunkEnd; lia |].
              exact Hd'.
           ++ intros x. rewrite !covered_cons, Hc'. tauto.
Qed.

End Scan.

(** *** Sequences of insertions *)

Lemma addChunks_snoc (cs : list Chunk) (c : Chunk) (acc : list Chunk * Z) :
  addChunks (cs ++ [c]) acc
  = addChunk c (fst (addChunks cs acc)) (snd (addChunks cs acc)).
Proof. unfold addChunks. rewrite fold_left_app. reflexivity. Qed.

Lemma orderly_prefix (pre post : list Chunk) :
  orderly (pre ++ post) -> orderly pre.
Proof.
  intros H p c q E. apply (H p c (q ++ post)).
  rewrite E, <- app_assoc. reflexivity.
Qed.

Lemma orderly_valid (cs : list Chunk) (d : Chunk) :
  orderly cs -> In d cs -> valid d.
Proof.
  intros H Hin. apply in_split in Hin. destruct Hin as [p [q E]].
  now destruct (H p d q E).
Qed.

Lemma orderlyFrom_sound (cs : list Chunk) :
  forall seen, orderlyFrom seen cs = true ->
    forall pre c post, cs = pre ++ c :: post ->
      valid c
      /\ (forall d, In d (seen ++ pre) -> disjoint c d)
      /\ (seen ++ pre = []
          \/ exists d, In d (seen ++ pre) /\ address d <= chunkEnd c).
Proof.
  induction cs as [|c0 rest IH]; intros seen H pre c post E.
  - destruct pre; discriminate.
  - cbn [orderlyFrom] in H.
    apply andb_prop in H. destruct H as [H H4].
    apply andb_prop in H. destruct H as [H H3].
    apply andb_prop in H. destruct H as [H1 H2].
    destruct pre as [|p pre]; cbn [app] in E; injection E as <- E.
    + rewrite app_nil_r. split; [|split].
      * unfold validb in H1. unfold valid.
        apply andb_prop in H1. destruct H1 as [H1 Hc].
        apply andb_prop in H1. destruct H1 as [Ha Hb]. lia.
      * intros d Hin. rewrite forallb_forall in H2. specialize (H2 d Hin).
        unfold disjointb in H2. unfold disjoint.
        apply orb_prop in H2. destruct H2; [left | right]; lia.
      * destruct seen as [|s0 seen]; [now left | right].
        apply existsb_exists in H3. destruct H3 as [d [Hin Hd]].
        exists d. split; [exact Hin | lia].
    + replace (seen ++ c0 :: pre) with ((seen ++ [c0]) ++ pre)
        by (rewrite <- app_assoc; reflexivity).
      exact (IH _ H4 pre c post E).
Qed.

Lemma orderlyFrom_orderly (cs : list Chunk) :
  orderlyFrom [] cs = true -> orderly cs.
Proof.
  intros H pre c post E. exact (orderlyFrom_sound cs [] H pre c post E).
Qed.


(** The collection after an orderly sequence: descending, covering
    exactly the chunks added, with the overlap counter untouched. *)
Lemma addChunks_orderly (cs : list Chunk) (n0 : Z) :
  orderly cs ->
  descending UINT_MODULUS (fst (addChunks cs ([], n0)))
  /\ (forall x, covered (fst (addChunks cs ([], n0))) x <-> covered cs x)
  /\ snd (addChunks cs ([], n0)) = n0.
Proof.
  induction cs as [|c pre IH] using rev_ind; intros Hord.
  - cbn. repeat split; trivial.
  - specialize (IH (orderly_prefix _ _ Hord)).
    destruct IH as [Hd [Hcov Hn]].
    destruct (Hord pre c [] eq_refl) as [Hv [Hdis Hlow]].
    rewrite addChunks_snoc. rewrite Hn.
    set (l := fst (addChunks pre ([], n0))) in *.
    destruct l as [|e0 l0] eqn:El.
    + (* the collection is empty: the chunk becomes its only element *)
      cbn [addChunk scanChunks fst snd]. split; [|split].
      * apply descending_cons; [exact Hv | apply Hv | exact I].
      * intros x. rewrite covered_app, <- Hcov.
        pose proof (covered_nil x). tauto.
      * reflexivity.
    + rewrite <- El in *.
      destruct (scanChunks_descending c Hv l UINT_MODULUS n0 Hd)
        as [l' [Hs [Hd' Hc']]].
      * apply Hv.
      * (* no element shares an address with the chunk *)
        intros e Hin.
        destruct (descending_In _ _ _ Hd Hin) as [Hve _].
        pose proof (valid_range _ Hv) as Rc.
        pose proof (valid_range _ Hve) as Re.
        unfold disjoint, chunkEnd.
        destruct (Z_le_gt_dec (address c + csize c) (address e)) as [|G1];
          [now left|].
        destruct (Z_le_gt_dec (address e + csize e) (address c)) as [|G2];
          [now right|].
        exfalso.
        assert (Hx : covered l (Z.max (address c) (address e))).
        { exists e. split; [exact Hin|]. unfold covers, chunkEnd. lia. }
        apply Hcov in Hx. destruct Hx as [d [Hind Hcd]].
        specialize (Hdis d Hind).
        unfold disjoint, covers, chunkEnd in *. lia.
      * (* the lowest element does not start above the chunk's end *)
        destruct Hlow as [-> | [d [Hind Hle]]].
        { cbn in El. discriminate. }
        pose proof (valid_range _ (orderly_valid _ _
                      (orderly_prefix _ _ Hord) Hind)) as Rd.
        assert (Hx : covered l (address d)).
        { apply Hcov. exists d. split; [exact Hind|].
          unfold covers, chunkEnd. lia. }
        destruct Hx as [e [Hin Hce]]. exists e. split; [exact Hin|].
        unfold covers in Hce. lia.
      * unfold addChunk. rewrite Hs. cbn [fst snd]. split; [|split].
        -- exact Hd'.
        -- intros x. rewrite Hc', covered_app, Hcov, covered_cons.
           pose proof (covered_nil x). tauto.
        -- reflexivity.
Qed.

(** ** C1 *)




(** A chunk that lies below every element without touching one is put
    in front of them ([push_front]), which breaks the descending order:
    here [{4, 6}] then goes in front of [{0, 2}] and is never compared
    with [{10, 2}], which it touches. *)
Lemma lowest_chunk_goes_in_front :
  fst (addChunks [mkChunk 10 2; mkChunk 0 2] ([], 0))
  = [mkChunk 0 2; mkChunk 10 2]
  /\ fst (addChunks [mkChunk 10 2; mkChunk 0 2; mkChunk 4 6] ([], 0))
     = [mkChunk 4 6; mkChunk 0 2; mkChunk 10 2]
  /\ touchOrOverlap (mkChunk 4 6) (mkChunk 10 2) = true.
Proof. repeat split. Qed.

(** *** Counting overlaps *)


Lemma overlapCount_nonneg (chunk : Chunk) (l : list Chunk) :
  0 <= overlapCount chunk l.
Proof. unfold overlapCount. lia. Qed.

Lemma wrap_wrap_add (a b : Z) : wrap (wrap a + b) = wrap (a + b).
Proof.
  unfold wrap. apply Z.add_mod_idemp_l. rewrite UINT_MODULUS_eq. lia.
Qed.


Lemma addChunk_count (chunk : Chunk) (l : list Chunk) (n : Z) :
  snd (addChunk chunk l n) = snd (scanChunks chunk l n).
Proof.
  unfold addChunk. destruct (scanChunks chunk l n) as [[fAdded l'] m].
  destruct fAdded; reflexivity.
Qed.


(** ** C2 *)




(** ** C3 *)

(** C3 (amended). From the empty accumulator, adding [{0, 8}] and then
    [{4, 4}] leaves two chunks, [{4, 4}] in front of [{0, 8}], and the
    overlap count 1: a chunk that overlaps another is counted, not
    merged. *)
Theorem contained_chunk_is_kept :
  addChunks [mkChunk 0 8; mkChunk 4 4] ([], 0)
  = ([mkChunk 4 4; mkChunk 0 8], 1).
Proof. reflexivity. Qed.

(** The collection is not the single chunk [{0, 8}]. *)
Lemma contained_chunk_counterexample :
  fst (addChunks [mkChunk 0 8; mkChunk 4 4] ([], 0)) <> [mkChunk 0 8]
  /\ List.length (fst (addChunks [mkChunk 0 8; mkChunk 4 4] ([], 0))) = 2%nat.
Proof. split; [discriminate | reflexivity]. Qed.

(** ** C4 *)

(** C4. From the empty accumulator, adding [{0, 4}], [{10, 4}] and then
    [{4, 6}] leaves the single chunk [{0, 14}]: the third chunk is merged
    into [{10, 4}] and the result into [{0, 4}]. *)
Theorem bridging_chunk_merges_both :
  fst (addChunks [mkChunk 0 4; mkChunk 10 4] ([], 0))
  = [mkChunk 10 4; mkChunk 0 4]
  /\ fst (checkMergeChunk (mkChunk 4 6) (mkChunk 10 4)) = true
  /\ fst (addChunks [mkChunk 0 4; mkChunk 10 4; mkChunk 4 6] ([], 0))
     = [mkChunk 0 14].
Proof. repeat split. Qed.

(* ================================================================== *)
(** * Further properties of the code *)

(** ** [makePrintable] *)

(** X1. Whatever the line is, its copy for the error message holds only
    printable characters and at most [64 + 5] of them; a line of at most
    64 characters keeps its length. *)
Theorem makePrintable_printable (str : list ascii) :
  forallb isprint (makePrintable str) = true
  /\ (List.length (makePrintable str) <= 69)%nat
  /\ ((List.length str <= 64)%nat ->
      List.length (makePrintable str) = List.length str).
Proof.
  unfold makePrintable, maxLen. split; [|split].
  - apply forallb_forall. intros c Hin. apply in_map_iff in Hin.
    destruct Hin as [ch [<- _]].
    destruct (isprint ch) eqn:E; cbn [negb]; [exact E | reflexivity].
  - rewrite length_map.
    destruct (List.length str <=? 64)%nat eqn:E.
    + apply Nat.leb_le in E. lia.
    + rewrite length_app, length_firstn.
      change (List.length (list_ascii_of_string "[etc]")) with 5%nat. lia.
  - intros Hle. rewrite length_map.
    apply Nat.leb_le in Hle. now rewrite Hle.
Qed.

Lemma makePrintable_printable_witness :
  List.length (makePrintable (list_ascii_of_string ":00000001FF")) = 11%nat.
Proof.
  refine (proj2 (proj2 (makePrintable_printable
                          (list_ascii_of_string ":00000001FF"))) _).
  cbn. lia.
Defined.

Lemma map_printable (s : list ascii) :
  forallb isprint s = true ->
  map (fun ch => if negb (isprint ch) then "?"%char else ch) s = s.
Proof.
  induction s as [|c s IH]; intros H; [reflexivity|].
  cbn [forallb] in H. apply andb_prop in H. destruct H as [Hc Hs].
  cbn [map]. rewrite Hc, (IH Hs). reflexivity.
Qed.

(** X2. A line of at most 64 printable characters is reported as it is;
    a longer line is reported as its first 64 characters, made
    printable, followed by the marker [[etc]]. *)
Theorem makePrintable_short_or_cut (str : list ascii) :
  ((List.length str <= 64)%nat -> forallb isprint str = true ->
     makePrintable str = str)
  /\ ((64 < List.length str)%nat ->
      makePrintable str
      = makePrintable (firstn 64 str) ++ list_ascii_of_string "[etc]").
Proof.
  unfold makePrintable, maxLen. split.
  - intros Hle Hp. apply Nat.leb_le in Hle. rewrite Hle.
    now apply map_printable.
  - intros Hlt.
    assert (E1 : (List.length str <=? 64)%nat = false) by (apply Nat.leb_gt; lia).
    assert (E2 : (List.length (firstn 64 str) <=? 64)%nat = true).
    { apply Nat.leb_le. rewrite length_firstn. lia. }
    rewrite E1, E2, map_app. reflexivity.
Qed.

Lemma makePrintable_short_or_cut_witness :
  makePrintable (list_ascii_of_string ":0000000900")
  = list_ascii_of_string ":0000000900".
Proof.
  refine (proj1 (makePrintable_short_or_cut
                   (list_ascii_of_string ":0000000900")) _ _).
  - cbn. lia.
  - reflexivity.
Defined.

(** ** [fromHex] *)

(** X3. A value that [fromHex] returns for [L] characters is the
    hexadecimal value of at most 8 digits and lies below [16 ^ L]: a
    2-character field is at most 255, a 4-character field at most
    65535, and no result reaches [2 ^ 32]. *)
Theorem fromHex_bound (hex : list ascii) (v : Z) :
  fromHex hex = Ok v ->
  size hex <= 8
  /\ forallb isHexDigit hex = true
  /\ v = hexValue hex
  /\ 0 <= v < 16 ^ size hex
  /\ v < UINT_MODULUS.
Proof.
  intros H.
  assert (Hs : size hex <= 8).
  { unfold fromHex in H. change (2 * sizeof_unsigned) with 8 in H.
    destruct (size hex >? 8) eqn:E; [discriminate | lia]. }
  rewrite fromHex_small in H by exact Hs.
  destruct (forallb isxdigit hex) eqn:F; [|discriminate].
  injection H as <-.
  pose proof (hexValue_range hex) as Hr. pose proof (size_nonneg hex).
  assert (16 ^ size hex <= 16 ^ 8) by (apply Z.pow_le_mono_r; lia).
  rewrite UINT_MODULUS_eq. change (16 ^ 8) with 4294967296 in *.
  rewrite forallb_isHexDigit. repeat split; try assumption; lia.
Qed.

Lemma fromHex_bound_witness :
  0 <= 255 < 16 ^ size (list_ascii_of_string "fF").
Proof.
  exact (proj1 (proj2 (proj2 (proj2
           (fromHex_bound (list_ascii_of_string "fF") 255 eq_refl))))).
Defined.

(** ** [checkMergeChunk] *)

(** X4. For two chunks that lie inside the address space,
    [checkMergeChunk] reports a merge exactly when one ends where the
    other starts; the element then covers the addresses of both and its
    size is the sum of the two sizes; otherwise it is left as it was. *)
Theorem checkMergeChunk_adjacent (chunk it : Chunk) :
  valid chunk -> valid it ->
  (fst (checkMergeChunk chunk it) = true
   <-> chunkEnd it = address chunk \/ chunkEnd chunk = address it)
  /\ (fst (checkMergeChunk chunk it) = true ->
      (forall x, covers (snd (checkMergeChunk chunk it)) x
                 <-> covers it x \/ covers chunk x)
      /\ csize (snd (checkMergeChunk chunk it)) = csize it + csize chunk)
  /\ (fst (checkMergeChunk chunk it) = false ->
      snd (checkMergeChunk chunk it) = it).
Proof.
  intros Hc Hi. rewrite checkMergeChunk_valid by assumption.
  apply valid_range in Hc. apply valid_range in Hi.
  destruct (chunkEnd it =? address chunk) eqn:E1;
    [|destruct (chunkEnd chunk =? address it) eqn:E2];
    cbn [fst snd]; unfold covers, chunkEnd in *; cbn [address csize].
  - apply Z.eqb_eq in E1. repeat split; auto; try lia; intuition lia.
  - apply Z.eqb_eq in E2. repeat split; auto; try lia; intuition lia.
  - apply Z.eqb_neq in E1. apply Z.eqb_neq in E2.
    repeat split; try discriminate; auto. intros [H | H]; contradiction.
Qed.

Lemma checkMergeChunk_adjacent_witness :
  csize (snd (checkMergeChunk (mkChunk 4 6) (mkChunk 10 4))) = 10.
Proof.
  refine (proj2 (proj1 (proj2 (checkMergeChunk_adjacent
            (mkChunk 4 6) (mkChunk 10 4) _ _)) _)).
  - unfold valid, chunkEnd. cbn. lia.
  - unfold valid, chunkEnd. cbn. lia.
  - reflexivity.
Defined.

(** X5. The comparison of a chunk's end is made in 32-bit arithmetic:
    an element that ends exactly at [2 ^ 32] is merged with a chunk that
    starts at address 0, and grows by that chunk's size. *)
Theorem checkMergeChunk_wraps (chunk it : Chunk) :
  address it + csize it = UINT_MODULUS -> address chunk = 0 ->
  checkMergeChunk chunk it
  = (true, mkChunk (address it) (wrap (csize it + csize chunk))).
Proof.
  intros He Ha. unfold checkMergeChunk. rewrite He, Ha.
  unfold wrap at 1. rewrite Z.mod_same by (rewrite UINT_MODULUS_eq; lia).
  reflexivity.
Qed.

Lemma checkMergeChunk_wraps_witness :
  checkMergeChunk (mkChunk 0 4) (mkChunk 4294967292 4)
  = (true, mkChunk 4294967292 8).
Proof.
  exact (checkMergeChunk_wraps (mkChunk 0 4) (mkChunk 4294967292 4)
           eq_refl eq_refl).
Defined.

(** ** The accumulator: sizes *)

Lemma totalSize_nonneg (l : list Chunk) :
  Forall (fun e => 0 <= csize e) l -> 0 <= totalSize l.
Proof.
  induction 1 as [|e l He _ IH]; cbn [totalSize fold_right]; [lia|].
  fold (totalSize l). lia.
Qed.

Lemma totalSize_cons (e : Chunk) (l : list Chunk) :
  totalSize (e :: l) = csize e + totalSize l.
Proof. reflexivity. Qed.

Lemma totalSize_app (l l' : list Chunk) :
  totalSize (l ++ l') = totalSize l + totalSize l'.
Proof.
  induction l as [|e l IH]; [reflexivity|].
  cbn [app]. rewrite !totalSize_cons, IH. lia.
Qed.

Lemma checkMergeChunk_size (chunk it : Chunk) :
  0 <= csize chunk -> 0 <= csize it ->
  csize it + csize chunk < UINT_MODULUS ->
  csize (snd (checkMergeChunk chunk it))
  = csize it + (if fst (checkMergeChunk chunk it) then csize chunk else 0).
Proof.
  intros Hc Hi Hlt. rewrite UINT_MODULUS_eq in Hlt. unfold checkMergeChunk.
  destruct (wrap (address it + csize it) =? address chunk);
    [|destruct (wrap (address chunk + csize chunk) =? address it)];
    cbn [fst snd csize]; try (apply wrap_small; lia). lia.
Qed.

Lemma checkMergeChunk_unmerged (chunk it : Chunk) :
  fst (checkMergeChunk chunk it) = false -> snd (checkMergeChunk chunk it) = it.
Proof.
  unfold checkMergeChunk.
  destruct (wrap (address it + csize it) =? address chunk);
    [|destruct (wrap (address chunk + csize chunk) =? address it)];
    cbn [fst snd]; intros H; try discriminate; reflexivity.
Qed.

Lemma mergeFollowing_size (cur : Chunk) (following : list Chunk) :
  0 <= csize cur -> Forall (fun e => 0 <= csize e) following ->
  csize cur + totalSize following < UINT_MODULUS ->
  totalSize (mergeFollowing cur following) = csize cur + totalSize following
  /\ Forall (fun e => 0 <= csize e) (mergeFollowing cur following).
Proof.
  intros Hc Hf Hlt. destruct following as [|next tl].
  - cbn. split; [lia | repeat constructor; exact Hc].
  - inversion Hf as [|? ? Hn Ht]; subst.
    pose proof (totalSize_nonneg _ Ht) as Hnn.
    rewrite totalSize_cons in Hlt.
    assert (Hs := checkMergeChunk_size cur next Hc Hn ltac:(lia)).
    cbn [mergeFollowing].
    destruct (checkMergeChunk cur next) as [merged next'].
    cbn [fst snd] in Hs. destruct merged.
    + rewrite !totalSize_cons, Hs. split; [lia|].
      constructor; [lia | exact Ht].
    + rewrite !totalSize_cons. split; [lia|].
      constructor; [exact Hc | exact Hf].
Qed.

Lemma scanChunks_size (chunk : Chunk) (l : list Chunk) :
  forall n,
    0 <= csize chunk -> Forall (fun e => 0 <= csize e) l ->
    totalSize l + csize chunk < UINT_MODULUS ->
    totalSize (snd (fst (scanChunks chunk l n)))
    = totalSize l + (if fst (fst (scanChunks chunk l n)) then csize chunk else 0)
    /\ Forall (fun e => 0 <= csize e) (snd (fst (scanChunks chunk l n))).
Proof.
  induction l as [|it rest IH]; intros n Hc Hl Hlt.
  - cbn. split; [lia | constructor].
  - inversion Hl as [|? ? Hi Hr]; subst.
    pose proof (totalSize_nonneg _ Hr) as Hnn.
    rewrite totalSize_cons in Hlt |- *.
    assert (Hs := checkMergeChunk_size chunk it Hc Hi ltac:(lia)).
    pose proof (checkMergeChunk_unmerged chunk it) as Hu.
    cbn [scanChunks].
    destruct (checkMergeChunk chunk it) as [merged it'].
    cbn [fst snd] in Hs, Hu. destruct merged.
    + cbn [fst snd].
      destruct (mergeFollowing_size it' rest) as [Ht Hf];
        [lia | exact Hr | lia |].
      rewrite Ht, Hs. split; [lia | exact Hf].
    + rewrite (Hu eq_refl) in *. clear Hu.
      destruct (address chunk >=? address it).
      * cbn [fst snd].
        destruct (mergeFollowing_size chunk (it :: rest)) as [Ht Hf];
          [exact Hc | exact Hl | rewrite totalSize_cons; lia |].
        rewrite Ht, totalSize_cons. split; [lia | exact Hf].
      * set (n1 := if overlapping chunk it then wrap (n + 1) else n).
        destruct (IH n1 Hc Hr ltac:(lia)) as [Ht Hf].
        destruct (scanChunks chunk rest n1) as [[fAdded rest'] m].
        cbn [fst snd] in *. rewrite totalSize_cons, Ht.
        split; [lia | constructor; assumption].
Qed.

Lemma addChunk_size (chunk : Chunk) (l : list Chunk) (n : Z) :
  0 <= csize chunk -> Forall (fun e => 0 <= csize e) l ->
  totalSize l + csize chunk < UINT_MODULUS ->
  totalSize (fst (addChunk chunk l n)) = totalSize l + csize chunk
  /\ Forall (fun e => 0 <= csize e) (fst (addChunk chunk l n)).
Proof.
  intros Hc Hl Hlt.
  destruct (scanChunks_size chunk l n Hc Hl Hlt) as [Ht Hf].
  unfold addChunk. destruct (scanChunks chunk l n) as [[fAdded l'] m].
  cbn [fst snd] in *. destruct fAdded; cbn [fst].
  - split; assumption.
  - rewrite totalSize_cons. split; [lia | constructor; assumption].
Qed.

(** X6. Whatever the order of the chunks and whether or not they
    overlap, the sizes of the elements of the collection add up to the
    sizes of all chunks added (as long as that total is below [2 ^ 32]):
    merging adds sizes, nothing is dropped. *)
Theorem sizes_are_conserved (cs : list Chunk) (n : Z) :
  Forall (fun c => 0 <= csize c) cs ->
  totalSize cs < UINT_MODULUS ->
  totalSize (fst (addChunks cs ([], n))) = totalSize cs.
Proof.
  intros Hcs Hlt.
  enough (H : totalSize (fst (addChunks cs ([], n))) = totalSize cs
              /\ Forall (fun e => 0 <= csize e) (fst (addChunks cs ([], n))))
    by apply H.
  induction cs as [|c pre IH] using rev_ind.
  - cbn. split; [reflexivity | constructor].
  - apply Forall_app in Hcs. destruct Hcs as [Hpre Hc].
    inversion Hc as [|? ? Hc0 _]; subst.
    rewrite totalSize_app in Hlt |- *. cbn [totalSize fold_right] in Hlt |- *.
    fold (totalSize pre) in *.
    destruct (IH Hpre ltac:(lia)) as [Ht Hf].
    rewrite addChunks_snoc.
    destruct (addChunk_size c (fst (addChunks pre ([], n)))
                (snd (addChunks pre ([], n))) Hc0 Hf ltac:(lia)) as [Ht' Hf'].
    rewrite Ht', Ht. split; [lia | exact Hf'].
Qed.

Lemma sizes_are_conserved_witness :
  totalSize (fst (addChunks [mkChunk 0 8; mkChunk 4 4; mkChunk 12 2] ([], 0)))
  = 14.
Proof.
  refine (sizes_are_conserved [mkChunk 0 8; mkChunk 4 4; mkChunk 12 2] 0 _ _).
  - repeat constructor; cbn; lia.
  - reflexivity.
Defined.

(** ** The accumulator: chunks that stand apart *)

Lemma touchOrOverlap_sym (a b : Chunk) :
  touchOrOverlap a b = touchOrOverlap b a.
Proof. unfold touchOrOverlap. apply andb_comm. Qed.

Lemma noneTouching_snoc (l : list Chunk) (c : Chunk) :
  noneTouching (l ++ [c]) = true ->
  noneTouching l = true /\ forall d, In d l -> touchOrOverlap c d = false.
Proof.
  induction l as [|e l IH]; intros H.
  - split; [reflexivity | intros d []].
  - cbn [app noneTouching] in H. apply andb_prop in H. destruct H as [H1 H2].
    destruct (IH H2) as [Hn Hd].
    rewrite forallb_app in H1. apply andb_prop in H1. destruct H1 as [H1 H1c].
    cbn [forallb] in H1c. rewrite andb_true_r in H1c.
    apply negb_true_iff in H1c.
    split.
    + cbn [noneTouching]. now rewrite H1, Hn.
    + intros d [<- | Hin]; [now rewrite touchOrOverlap_sym | now apply Hd].
Qed.

Lemma scanChunks_apart (chunk : Chunk) (l : list Chunk) :
  valid chunk ->
  forall n,
    (forall e, In e l -> valid e /\ touchOrOverlap chunk e = false) ->
    snd (scanChunks chunk l n) = n
    /\ if fst (fst (scanChunks chunk l n))
       then Permutation (chunk :: l) (snd (fst (scanChunks chunk l n)))
       else snd (fst (scanChunks chunk l n)) = l.
Proof.
  intros Hc. pose proof (valid_range _ Hc) as Rc.
  assert (Hno : forall e, valid e -> touchOrOverlap chunk e = false ->
            overlapping chunk e = false /\ checkMergeChunk chunk e = (false, e)).
  { intros e He Ht. pose proof (valid_range _ He) as Re.
    rewrite (overlapping_valid chunk Hc e He).
    rewrite checkMergeChunk_valid by assumption.
    unfold touchOrOverlap, chunkEnd in *.
    apply andb_false_iff in Ht.
    destruct (address e + csize e >? address chunk) eqn:E1,
             (address chunk + csize chunk >? address e) eqn:E2,
             (address e + csize e =? address chunk) eqn:E3,
             (address chunk + csize chunk =? address e) eqn:E4;
      cbn [andb]; try (split; reflexivity); exfalso; destruct Ht; lia. }
  induction l as [|it rest IH]; intros n Hl.
  - cbn. auto.
  - destruct (Hl it (or_introl eq_refl)) as [Hv Ht].
    destruct (Hno it Hv Ht) as [Ho Hm].
    cbn [scanChunks]. rewrite Ho, Hm.
    destruct (address chunk >=? address it).
    + cbn [fst snd mergeFollowing]. rewrite Hm. split; [reflexivity|].
      apply Permutation_refl.
    + specialize (IH n (fun e Hin => Hl e (or_intror Hin))).
      destruct (scanChunks chunk rest n) as [[fAdded rest'] m].
      cbn [fst snd] in *. destruct IH as [-> IH]. split; [reflexivity|].
      destruct fAdded.
      * apply perm_trans with (it :: chunk :: rest);
          [apply perm_swap | now apply perm_skip].
      * now rewrite IH.
Qed.

(** X7. When the data chunks lie inside the address space and no two of
    them touch or overlap, then in whatever order they arrive the
    collection holds exactly these chunks, one element per data record,
    and the overlap counter is not changed. *)
Theorem isolated_chunks_are_kept (cs : list Chunk) (n : Z) :
  Forall valid cs -> noneTouching cs = true ->
  Permutation cs (fst (addChunks cs ([], n)))
  /\ List.length (fst (addChunks cs ([], n))) = List.length cs
  /\ snd (addChunks cs ([], n)) = n.
Proof.
  intros Hv Hn.
  enough (H : Permutation cs (fst (addChunks cs ([], n)))
              /\ snd (addChunks cs ([], n)) = n).
  { destruct H as [Hp Hs]. repeat split; try assumption.
    symmetry. now apply Permutation_length. }
  induction cs as [|c pre IH] using rev_ind.
  - cbn. split; [constructor | reflexivity].
  - apply Forall_app in Hv. destruct Hv as [Hpre Hc].
    inversion Hc as [|? ? Hc0 _]; subst.
    destruct (noneTouching_snoc _ _ Hn) as [Hn' Hd].
    destruct (IH Hpre Hn') as [Hp Hs].
    rewrite addChunks_snoc, Hs.
    set (l := fst (addChunks pre ([], n))) in *.
    destruct (scanChunks_apart c l Hc0 n) as [Hm Hperm].
    { intros e Hin. apply (Permutation_in _ (Permutation_sym Hp)) in Hin.
      split; [|now apply Hd].
      rewrite Forall_forall in Hpre. now apply Hpre. }
    unfold addChunk. destruct (scanChunks c l n) as [[fAdded l'] m].
    cbn [fst snd] in *. subst m.
    destruct fAdded; cbn [fst snd]; split; try reflexivity.
    + apply perm_trans with (c :: pre);
        [apply Permutation_sym, Permutation_cons_append|].
      apply perm_trans with (c :: l); [now apply perm_skip | exact Hperm].
    + subst l'. apply perm_trans with (c :: pre);
        [apply Permutation_sym, Permutation_cons_append | now apply perm_skip].
Qed.

Lemma isolated_chunks_are_kept_witness :
  List.length
    (fst (addChunks [mkChunk 10 2; mkChunk 0 2; mkChunk 5 2] ([], 0)))
  = 3%nat.
Proof.
  refine (proj1 (proj2 (isolated_chunks_are_kept
                   [mkChunk 10 2; mkChunk 0 2; mkChunk 5 2] 0 _ _))).
  - repeat constructor; unfold chunkEnd; cbn; lia.
  - reflexivity.
Defined.

(** ** The accumulator: a contiguous ascending run *)

Lemma contiguousFrom_size (cs : list Chunk) :
  forall a, contiguousFrom a cs -> 0 <= totalSize cs.
Proof.
  induction cs as [|c rest IH]; intros a H; [cbn; lia|].
  cbn [contiguousFrom] in H. destruct H as [_ [Hs Hr]].
  rewrite totalSize_cons. specialize (IH _ Hr). lia.
Qed.

Lemma addChunks_contiguous (cs : list Chunk) :
  forall a s n,
    0 <= a -> 0 < s -> contiguousFrom (a + s) cs ->
    a + s + totalSize cs < UINT_MODULUS ->
    addChunks cs ([mkChunk a s], n) = ([mkChunk a (s + totalSize cs)], n).
Proof.
  induction cs as [|c rest IH]; intros a s n Ha Hs Hc Hlt.
  - cbn. now rewrite Z.add_0_r.
  - cbn [contiguousFrom] in Hc. destruct Hc as [Hac [Hsc Hr]].
    pose proof (contiguousFrom_size _ _ Hr) as Hnn.
    rewrite totalSize_cons in Hlt |- *. rewrite UINT_MODULUS_eq in Hlt.
    unfold addChunks. cbn [fold_left fst snd].
    assert (Hstep : addChunk c [mkChunk a s] n
                    = ([mkChunk a (s + csize c)], n)).
    { unfold addChunk. cbn [scanChunks]. unfold overlapping, checkMergeChunk.
      cbn [address csize]. rewrite Hac.
      rewrite (wrap_small (a + s)) by lia.
      rewrite (wrap_small (s + csize c)) by lia.
      replace (a + s >? a + s) with false
        by (symmetry; rewrite Z.gtb_ltb; apply Z.ltb_irrefl).
      rewrite Z.eqb_refl. reflexivity. }
    rewrite Hstep. fold (addChunks rest ([mkChunk a (s + csize c)], n)).
    rewrite IH; try lia.
    + do 2 f_equal. f_equal. lia.
    + replace (a + (s + csize c)) with (a + s + csize c) by lia.
      exact Hr.
    + rewrite UINT_MODULUS_eq. lia.
Qed.

(** X8. Data chunks that arrive in ascending order, each starting where
    the one before it ends, are merged into a single element that starts
    with the first chunk and has the sum of all sizes; the overlap
    counter is not changed. *)
Theorem contiguous_run_is_one_chunk (c0 : Chunk) (cs : list Chunk) (n : Z) :
  0 <= address c0 -> 0 < csize c0 ->
  contiguousFrom (chunkEnd c0) cs ->
  chunkEnd c0 + totalSize cs < UINT_MODULUS ->
  addChunks (c0 :: cs) ([], n)
  = ([mkChunk (address c0) (csize c0 + totalSize cs)], n).
Proof.
  intros Ha Hs Hc Hlt. destruct c0 as [a s]. unfold chunkEnd in *.
  cbn [address csize] in *.
  change (addChunks (mkChunk a s :: cs) ([], n))
    with (addChunks cs ([mkChunk a s], n)).
  now apply addChunks_contiguous.
Qed.

Lemma contiguous_run_is_one_chunk_witness :
  addChunks [mkChunk 256 16; mkChunk 272 16; mkChunk 288 8] ([], 0)
  = ([mkChunk 256 40], 0).
Proof.
  refine (contiguous_run_is_one_chunk (mkChunk 256 16)
            [mkChunk 272 16; mkChunk 288 8] 0 _ _ _ _).
  - cbn. lia.
  - cbn. lia.
  - cbn. repeat split; lia.
  - reflexivity.
Defined.

(** ** The [switch] in closed form *)

Lemma payload_shift (line : list ascii) (k : Z) :
  byteCount line = 2 -> k = 4 \/ k = 16 ->
  wrap (Z.shiftl (hexValue (payloadSpan line)) k)
  = Z.shiftl (hexValue (payloadSpan line)) k.
Proof.
  intros Hn Hk. pose proof (payload16 line Hn) as Hr.
  rewrite Z.shiftl_mul_pow2 by lia.
  destruct Hk as [-> | ->].
  - change (2 ^ 4) with 16. apply wrap_small. lia.
  - change (2 ^ 16) with 65536. apply wrap_small. lia.
Qed.

Lemma half_range (s : list ascii) : 0 <= hexValue (firstn 4 s) < 65536.
Proof.
  pose proof (hexValue_range (firstn 4 s)) as Hv.
  assert (Hs : size (firstn 4 s) <= 4)
    by (unfold size; rewrite length_firstn; lia).
  pose proof (size_nonneg (firstn 4 s)).
  assert (16 ^ size (firstn 4 s) <= 16 ^ 4)
    by (apply Z.pow_le_mono_r; lia).
  change (16 ^ 4) with 65536 in *. lia.
Qed.

(** The two 4-character halves of the payload of a start-segment
    record. *)
Lemma half_spans (line : list ascii) :
  wellFramed line = true -> byteCount line = 4 ->
  subspan dataOffset 4 line = Ok (firstn 4 (skipn 9 line))
  /\ subspan (dataOffset + 4) 4 line = Ok (firstn 4 (skipn 13 line))
  /\ fromHex (firstn 4 (skipn 9 line)) = Ok (csField line)
  /\ fromHex (firstn 4 (skipn 13 line)) = Ok (ipField line).
Proof.
  intros W Hn. apply wellFramed_inv in W.
  destruct W as [rest [-> [Hhex Hsz]]].
  change dataOffset with 9.
  rewrite (subspan_ok 9 4), (subspan_ok (9 + 4) 4) by lia.
  repeat split.
  - rewrite fromHex_small.
    + change (skipn 9 (":"%char :: rest)) with (skipn 8 rest).
      rewrite forallb_firstn by now apply forallb_skipn. reflexivity.
    + unfold size. rewrite length_firstn. change capacity with 8. lia.
  - rewrite fromHex_small.
    + change (skipn 13 (":"%char :: rest)) with (skipn 12 rest).
      rewrite forallb_firstn by now apply forallb_skipn. reflexivity.
    + unfold size. rewrite length_firstn. change capacity with 8. lia.
Qed.

Lemma handleRecord_closed (st : State) (line : list ascii) :
  wellFramed line = true ->
  handleRecord st line (fieldsOf (baseAddress st) line)
  = if acceptable line then Ok (recordEffect st line) else Throw FormatError.
Proof.
  intros W. unfold handleRecord, acceptable, recordEffect.
  cbn [fieldsOf f_dataSize f_recordType f_dataSpan f_address].
  unfold typeEof, typeEsa, typeSsa, typeEla, typeSla, typeData.
  destruct (Z.eqb_spec (typeField line) 1) as [-> | T1].
  { cbn [Z.eqb Pos.eqb orb].
    destruct (byteCount line =? 0); reflexivity. }
  destruct (Z.eqb_spec (typeField line) 2) as [-> | T2].
  { cbn [Z.eqb Pos.eqb orb].
    destruct (Z.eqb_spec (byteCount line) 2) as [Hn | Hn];
      cbn [negb throwIf bind]; [|reflexivity].
    rewrite fromHex_payload by (assumption || lia). cbn [bind].
    rewrite (payload_shift line 4 Hn (or_introl eq_refl)). reflexivity. }
  destruct (Z.eqb_spec (typeField line) 3) as [-> | T3].
  { cbn [Z.eqb Pos.eqb orb].
    destruct (Z.eqb_spec (byteCount line) 4) as [Hn | Hn];
      cbn [negb throwIf bind]; [|reflexivity].
    destruct (half_spans line W Hn) as [S1 [S2 [F1 F2]]].
    rewrite S1. cbn [bind]. rewrite F1. cbn [bind].
    rewrite S2. cbn [bind]. rewrite F2. cbn [bind].
    pose proof (half_range (skipn 9 line)) as R1.
    pose proof (half_range (skipn 13 line)) as R2.
    fold (csField line) in R1. fold (ipField line) in R2.
    rewrite Z.shiftl_mul_pow2 by lia. change (2 ^ 4) with 16.
    rewrite (wrap_small (csField line * 16)) by lia.
    rewrite (wrap_small (csField line * 16 + ipField line)) by lia.
    reflexivity. }
  destruct (Z.eqb_spec (typeField line) 4) as [-> | T4].
  { cbn [Z.eqb Pos.eqb orb].
    destruct (Z.eqb_spec (byteCount line) 2) as [Hn | Hn];
      cbn [negb throwIf bind]; [|reflexivity].
    rewrite fromHex_payload by (assumption || lia). cbn [bind].
    rewrite (payload_shift line 16 Hn (or_intror eq_refl)). reflexivity. }
  destruct (Z.eqb_spec (typeField line) 5) as [-> | T5].
  { cbn [Z.eqb Pos.eqb orb].
    destruct (Z.eqb_spec (byteCount line) 4) as [Hn | Hn];
      cbn [negb throwIf bind]; [|reflexivity].
    rewrite fromHex_payload by (assumption || lia). reflexivity. }
  destruct (Z.eqb_spec (typeField line) 0) as [T0 | T0].
  { unfold withData. cbn [csize].
    destruct (addChunk _ (chunks st) (numOverlapping st)). reflexivity. }
  cbn [orb]. reflexivity.
Qed.

(** The loop body in closed form. *)
Lemma processLine_closed (st : State) (line : list ascii) :
  foundEof st = false ->
  processLine st line
  = if validRecord line then Ok (nextLine (recordEffect st line))
    else Throw (recordError line).
Proof.
  intros Heof. unfold processLine, validRecord, recordError.
  rewrite Heof, parseLine_closed. cbn [throwIf bind].
  destruct (wellFramed line) eqn:W; [|reflexivity].
  destruct (byteSum line =? 0); [|reflexivity]. cbn [bind andb].
  rewrite (handleRecord_closed st line W).
  destruct (acceptable line); reflexivity.
Qed.

(** ** Which lines are accepted, and which errors are raised *)

(** X9. The loop body accepts a line exactly when no EOF record has been
    seen and the line is correctly framed, its bytes sum to 0 modulo
    256, its record type is one of 0..5, and its payload size is the one
    that the type admits (any for data, 0 for EOF, 2 for the base
    address records, 4 for the start address records). *)
Theorem processLine_accepts (st : State) (line : list ascii) :
  (exists st', processLine st line = Ok st')
  <-> foundEof st = false /\ validRecord line = true.
Proof.
  split.
  - intros [st' H]. destruct (foundEof st) eqn:Heof.
    + unfold processLine in H. rewrite Heof in H. discriminate.
    + rewrite (processLine_closed st line Heof) in H.
      destruct (validRecord line); [auto | discriminate].
  - intros [Heof Hv]. rewrite (processLine_closed st line Heof), Hv. eauto.
Qed.

(** X10. The loop body raises one of three errors only: "EOF record
    before end of file" exactly when an EOF record has been seen;
    otherwise "Incorrect checksum" exactly when the line is correctly
    framed and its bytes do not sum to 0; otherwise the format error.
    "Number too large" is never raised on a line. *)
Theorem processLine_errors (st : State) (line : list ascii) (e : error) :
  processLine st line = Throw e ->
  (e = EofBeforeEnd /\ foundEof st = true)
  \/ (e = IncorrectChecksum /\ foundEof st = false
      /\ wellFramed line = true /\ byteSum line <> 0)
  \/ (e = FormatError /\ foundEof st = false
      /\ (wellFramed line = false
          \/ (byteSum line = 0 /\ acceptable line = false))).
Proof.
  intros H. destruct (foundEof st) eqn:Heof.
  - left. unfold processLine in H. rewrite Heof in H.
    injection H as <-. auto.
  - right. rewrite (processLine_closed st line Heof) in H.
    unfold validRecord, recordError in H.
    destruct (wellFramed line); cbn [andb] in H.
    + destruct (Z.eqb_spec (byteSum line) 0) as [Hs | Hs]; cbn [andb] in H.
      * destruct (acceptable line); [discriminate|].
        injection H as <-. right. auto.
      * injection H as <-. left. auto.
    + injection H as <-. right. auto.
Qed.

Lemma processLine_errors_witness :
  processLine initialState (list_ascii_of_string ":00000006FA")
  = Throw FormatError
  /\ acceptable (list_ascii_of_string ":00000006FA") = false.
Proof.
  assert (H : processLine initialState (list_ascii_of_string ":00000006FA")
              = Throw FormatError) by (vm_compute; reflexivity).
  split; [exact H|].
  destruct (processLine_errors initialState _ FormatError H)
    as [[D _] | [[D _] | [_ [_ [W | [_ A]]]]]];
    [discriminate D | discriminate D | vm_compute in W; discriminate W
    | exact A].
Defined.

(** ** C10 *)

Lemma unknown_type_unacceptable (line : list ascii) :
  ~ (0 <= typeField line <= 5) -> acceptable line = false.
Proof.
  intros H. unfold acceptable, typeData, typeEof, typeEsa, typeEla, typeSsa,
    typeSla.
  destruct (Z.eqb_spec (typeField line) 0); [lia|].
  destruct (Z.eqb_spec (typeField line) 1); [lia|].
  destruct (Z.eqb_spec (typeField line) 2); [lia|].
  destruct (Z.eqb_spec (typeField line) 4); [lia|].
  destruct (Z.eqb_spec (typeField line) 3); [lia|].
  destruct (Z.eqb_spec (typeField line) 5); [lia|].
  reflexivity.
Qed.

(** C10. Validation of a line is ordered: framing and length first
    (format error), then the checksum, then the record type and its
    payload size. A line that is not correctly framed is a format error;
    a correctly framed line with a wrong checksum reports "Incorrect
    checksum" whatever its record type and payload size are; a correctly
    framed line with a valid checksum is a format error when its type is
    not one of 0..5 or its payload size is not the one its type admits,
    and is accepted otherwise. Hence the format error of the [switch]
    (unknown type, wrong payload size) is raised only on lines whose
    bytes sum to 0 modulo 256. *)
Theorem validation_order (st : State) (line : list ascii) :
  foundEof st = false ->
  (wellFramed line = false -> processLine st line = Throw FormatError)
  /\ (wellFramed line = true -> byteSum line <> 0 ->
      processLine st line = Throw IncorrectChecksum)
  /\ (wellFramed line = true -> byteSum line = 0 ->
      processLine st line
      = (st' <- handleRecord st line (fieldsOf (baseAddress st) line) ;;
         Ok (nextLine st')))
  /\ (forall f, parseLine (baseAddress st) line = Ok f ->
      wellFramed line = true /\ byteSum line = 0)
  /\ (wellFramed line = true -> byteSum line = 0 ->
      acceptable line = false ->
      handleRecord st line (fieldsOf (baseAddress st) line) = Throw FormatError
      /\ processLine st line = Throw FormatError)
  /\ (wellFramed line = true -> byteSum line = 0 ->
      ~ (0 <= typeField line <= 5) ->
      processLine st line = Throw FormatError)
  /\ (wellFramed line = true -> byteSum line = 0 ->
      acceptable line = true ->
      processLine st line = Ok (nextLine (recordEffect st line)))
  /\ (wellFramed line = true ->
      processLine st line = Throw FormatError ->
      byteSum line = 0 /\ acceptable line = false).
Proof.
  intros Heof.
  assert (Hsw : wellFramed line = true -> byteSum line = 0 ->
                processLine st line
                = if acceptable line then Ok (nextLine (recordEffect st line))
                  else Throw FormatError).
  { intros W Hs. rewrite (processLine_closed st line Heof).
    unfold validRecord, recordError. rewrite W, Hs. cbn [Z.eqb andb].
    destruct (acceptable line); reflexivity. }
  split; [|split; [|split; [|split; [|split; [|split; [|split]]]]]].
  - intros W. unfold processLine.
    rewrite Heof, parseLine_closed, W. reflexivity.
  - intros W Hne. apply Z.eqb_neq in Hne. unfold processLine.
    rewrite Heof, parseLine_closed, W, Hne. reflexivity.
  - intros W Hs. exact (processLine_valid st line Heof W Hs).
  - intros f Hf. rewrite parseLine_closed in Hf.
    destruct (wellFramed line); [|discriminate].
    destruct (byteSum line =? 0) eqn:E; [|discriminate].
    split; [reflexivity | now apply Z.eqb_eq].
  - intros W Hs Ha. split.
    + rewrite (handleRecord_closed st line W), Ha. reflexivity.
    + rewrite (Hsw W Hs), Ha. reflexivity.
  - intros W Hs Ht.
    rewrite (Hsw W Hs), (unknown_type_unacceptable line Ht). reflexivity.
  - intros W Hs Ha. rewrite (Hsw W Hs), Ha. reflexivity.
  - intros W Hf.
    destruct (Z.eqb_spec (byteSum line) 0) as [Hs | Hs].
    + split; [exact Hs|]. rewrite (Hsw W Hs) in Hf.
      destruct (acceptable line); [discriminate | reflexivity].
    + exfalso. apply Z.eqb_neq in Hs. unfold processLine in Hf.
      rewrite Heof, parseLine_closed, W, Hs in Hf. discriminate.
Qed.

Lemma validation_order_witness :
  processLine initialState (list_ascii_of_string ":0000000900")
  = Throw IncorrectChecksum
  /\ processLine initialState (list_ascii_of_string ":00000009F7")
     = Throw FormatError
  /\ processLine initialState (list_ascii_of_string ":0100000400FB")
     = Throw FormatError.
Proof.
  split; [|split].
  - refine (proj1 (proj2 (validation_order initialState
              (list_ascii_of_string ":0000000900") eq_refl)) _ _).
    + vm_compute. reflexivity.
    + vm_compute. discriminate.
  - refine (proj1 (proj2 (proj2 (proj2 (proj2 (proj2
              (validation_order initialState
                 (list_ascii_of_string ":00000009F7") eq_refl)))))) _ _ _).
    + vm_compute. reflexivity.
    + vm_compute. reflexivity.
    + vm_compute. intros [_ H]. apply H. reflexivity.
  - refine (proj2 (proj1 (proj2 (proj2 (proj2 (proj2
              (validation_order initialState
                 (list_ascii_of_string ":0100000400FB") eq_refl))))) _ _ _)).
    + vm_compute. reflexivity.
    + vm_compute. reflexivity.
    + vm_compute. reflexivity.
Defined.

(** ** EOF and start-address records *)

Ltac known_type Ht :=
  unfold recordEffect, acceptable; rewrite Ht;
  unfold typeEof, typeEsa, typeSsa, typeEla, typeSla, typeData;
  cbn [Z.eqb Pos.eqb orb].

(** X11. With no EOF record seen, a correctly framed EOF record with a
    valid checksum is a format error unless it carries no payload; then
    it only sets the EOF flag (and the line counter moves on), and the
    line has exactly 11 characters. *)
Theorem eof_record (st : State) (line : list ascii) :
  foundEof st = false ->
  wellFramed line = true ->
  byteSum line = 0 ->
  typeField line = typeEof ->
  (byteCount line <> 0 -> processLine st line = Throw FormatError)
  /\ (byteCount line = 0 ->
      processLine st line = Ok (nextLine (withEof st)) /\ size line = 11).
Proof.
  intros Heof W Hsum Ht.
  rewrite (processLine_closed st line Heof).
  unfold validRecord, recordError. rewrite W, Hsum. cbn [Z.eqb andb].
  known_type Ht. split; intros Hn.
  - apply Z.eqb_neq in Hn. rewrite Hn. reflexivity.
  - rewrite Hn. cbn [Z.eqb]. split; [reflexivity|].
    apply wellFramed_inv in W. destruct W as [rest [_ [_ Hsz]]]. lia.
Qed.

Lemma eof_record_witness :
  processLine initialState (list_ascii_of_string ":00000001FF")
  = Ok (nextLine (withEof initialState))
  /\ processLine initialState (list_ascii_of_string ":0100000155A9")
     = Throw FormatError.
Proof.
  split.
  - refine (proj1 (proj2 (eof_record initialState
              (list_ascii_of_string ":00000001FF") _ _ _ _) _));
      vm_compute; reflexivity.
  - refine (proj1 (eof_record initialState
              (list_ascii_of_string ":0100000155A9") _ _ _ _) _);
      vm_compute; try reflexivity. discriminate.
Defined.

(** X12. With no EOF record seen, on a correctly framed line with a
    valid checksum: a Start Segment Address record is a format error
    unless its payload has 4 bytes, and then sets the start address to
    the first 16-bit half times 16 plus the second half; a Start Linear
    Address record likewise sets it to the 32-bit payload value. Either
    one adds one to the count of start addresses and changes nothing
    else. *)
Theorem start_address_records (st : State) (line : list ascii) :
  foundEof st = false ->
  wellFramed line = true ->
  byteSum line = 0 ->
  (typeField line = typeSsa ->
     (byteCount line <> 4 -> processLine st line = Throw FormatError)
     /\ (byteCount line = 4 ->
         0 <= csField line < 65536 /\ 0 <= ipField line < 65536
         /\ processLine st line
            = Ok (nextLine
                    (withStartAddress st
                       (csField line * 16 + ipField line)))))
  /\ (typeField line = typeSla ->
     (byteCount line <> 4 -> processLine st line = Throw FormatError)
     /\ (byteCount line = 4 ->
         0 <= hexValue (payloadSpan line) < UINT_MODULUS
         /\ processLine st line
            = Ok (nextLine
                    (withStartAddress st (hexValue (payloadSpan line)))))).
Proof.
  intros Heof W Hsum.
  rewrite (processLine_closed st line Heof).
  unfold validRecord, recordError. rewrite W, Hsum. cbn [Z.eqb andb].
  split; intros Ht; known_type Ht; split; intros Hn.
  - apply Z.eqb_neq in Hn. rewrite Hn. reflexivity.
  - rewrite Hn. cbn [Z.eqb Pos.eqb].
    pose proof (half_range (skipn 9 line)).
    pose proof (half_range (skipn 13 line)). auto.
  - apply Z.eqb_neq in Hn. rewrite Hn. reflexivity.
  - rewrite Hn. cbn [Z.eqb Pos.eqb]. split; [|reflexivity].
    pose proof (hexValue_range (payloadSpan line)) as Hv.
    pose proof (payloadSpan_size line) as Hs.
    pose proof (size_nonneg (payloadSpan line)).
    assert (16 ^ size (payloadSpan line) <= 16 ^ 8)
      by (apply Z.pow_le_mono_r; lia).
    rewrite UINT_MODULUS_eq. change (16 ^ 8) with 4294967296 in *. lia.
Qed.

Lemma start_address_records_witness :
  exists st,
    processLine initialState (list_ascii_of_string ":0400000312345678E5")
    = Ok st
    /\ startAddress st = 96696 /\ numStartAddresses st = 1.
Proof.
  eexists. split.
  - refine (proj2 (proj2 (proj2 (proj1 (start_address_records initialState
              (list_ascii_of_string ":0400000312345678E5") _ _ _) _) _)));
      vm_compute; reflexivity.
  - split; vm_compute; reflexivity.
Defined.

(** ** Runs of the loop *)

Lemma lineLoop_Finished (input : list (list ascii)) (ending : streamEnd) :
  forall st st',
    lineLoop input ending st = Finished st'
    <-> runLines input st = Ok st' /\ ending = CleanEof.
Proof.
  induction input as [|l input IH]; intros st st'; cbn [lineLoop runLines].
  - destruct ending; split.
    + intros H. injection H as <-. auto.
    + intros [H _]. injection H as <-. reflexivity.
    + discriminate.
    + intros [_ H]. discriminate.
  - destruct (processLine st l) as [st1| | |]; cbn [bind].
    + apply IH.
    + split; [discriminate | intros [H _]; discriminate].
    + split; [discriminate | intros [H _]; discriminate].
    + split; [discriminate | intros [H _]; discriminate].
Qed.

Lemma lineLoop_Failed (input : list (list ascii)) (ending : streamEnd) :
  forall st e n text,
    lineLoop input ending st = Failed e n text ->
    (exists pre l post st1,
        input = pre ++ l :: post
        /\ runLines pre st = Ok st1
        /\ processLine st1 l = Throw e
        /\ n = iLine st1 /\ text = makePrintable l)
    \/ (exists partial st1,
           ending = Broken partial
           /\ runLines input st = Ok st1
           /\ e = ReadError
           /\ n = iLine st1 /\ text = makePrintable partial).
Proof.
  induction input as [|l input IH]; intros st e n text H;
    cbn [lineLoop] in H.
  - right. destruct ending as [|partial]; [discriminate|].
    injection H as <- <- <-. exists partial, st. auto.
  - destruct (processLine st l) as [st1|e1| |] eqn:E; try discriminate.
    + destruct (IH _ _ _ _ H) as
        [[pre [l0 [post [st2 [-> [Hr [Ht [Hn Hx]]]]]]]]
        | [partial [st2 [He [Hr [Hre [Hn Hx]]]]]]].
      * left. exists (l :: pre), l0, post, st2. repeat split; try assumption.
        cbn [runLines]. rewrite E. exact Hr.
      * right. exists partial, st2. repeat split; try assumption.
        cbn [runLines]. rewrite E. exact Hr.
    + injection H as <- <- <-. left. exists [], l, input, st.
      repeat split. exact E.
Qed.

Lemma runLines_iLine_initial (input : list (list ascii)) (st : State) :
  runLines input initialState = Ok st ->
  iLine st = wrap (Z.of_nat (List.length input) + 1).
Proof.
  intros H. destruct (runLines_iLine _ _ _ H) as [-> | [-> ->]].
  - cbn [initialState iLine]. f_equal. lia.
  - reflexivity.
Qed.

Lemma processLine_error_kind (st : State) (line : list ascii) (e : error) :
  processLine st line = Throw e ->
  e = EofBeforeEnd \/ e = IncorrectChecksum \/ e = FormatError.
Proof.
  intros H. destruct (foundEof st) eqn:Heof.
  - unfold processLine in H. rewrite Heof in H. injection H as <-. auto.
  - rewrite (processLine_closed st line Heof) in H.
    destruct (validRecord line); [discriminate|]. injection H as <-.
    unfold recordError. destruct (wellFramed line); [|auto].
    destruct (byteSum line =? 0); auto.
Qed.

(** X13. Every failure of [processHexFile] names its place: a failure
    other than the read error comes from a line all of whose
    predecessors were accepted, and carries that line's number (as the
    32-bit counter holds it) and its printable copy; the read error
    comes after every line was accepted and carries the number after the
    last line. No failure is "Number too large". *)
Theorem failure_cites_line
  (input : list (list ascii)) (ending : streamEnd)
  (e : error) (n : Z) (text : list ascii) :
  processHexFile input ending = Failed e n text ->
  e <> NumberTooLarge
  /\ ((e <> ReadError
       /\ exists pre l post st,
            input = pre ++ l :: post
            /\ runLines pre initialState = Ok st
            /\ processLine st l = Throw e
            /\ n = wrap (Z.of_nat (List.length pre) + 1)
            /\ text = makePrintable l)
      \/ (e = ReadError
          /\ exists partial st,
               ending = Broken partial
               /\ runLines input initialState = Ok st
               /\ n = wrap (Z.of_nat (List.length input) + 1)
               /\ text = makePrintable partial)).
Proof.
  intros H. unfold processHexFile in H.
  destruct (lineLoop_Failed _ _ _ _ _ _ H) as
    [[pre [l [post [st [Hin [Hr [Ht [Hn Hx]]]]]]]]
    | [partial [st [He [Hr [Hre [Hn Hx]]]]]]].
  - assert (Hk : e <> NumberTooLarge /\ e <> ReadError).
    { destruct (processLine_error_kind _ _ _ Ht) as [-> | [-> | ->]];
        split; discriminate. }
    split; [apply Hk|]. left. split; [apply Hk|].
    exists pre, l, post, st. repeat split; try assumption.
    rewrite Hn. now apply runLines_iLine_initial.
  - subst e. split; [discriminate|]. right. split; [reflexivity|].
    exists partial, st. repeat split; try assumption.
    rewrite Hn. now apply runLines_iLine_initial.
Qed.

Lemma failure_cites_line_witness :
  exists pre l post,
    [list_ascii_of_string ":0400100001020304E2";
     list_ascii_of_string ":04001400050607080x"]
    = pre ++ l :: post
    /\ 2 = wrap (Z.of_nat (List.length pre) + 1).
Proof.
  assert (H : processHexFile
                [list_ascii_of_string ":0400100001020304E2";
                 list_ascii_of_string ":04001400050607080x"] CleanEof
              = Failed FormatError 2
                  (list_ascii_of_string ":04001400050607080x"))
    by (vm_compute; reflexivity).
  destruct (failure_cites_line _ _ _ _ _ H) as [_ [[_ Hl] | [D _]]];
    [|discriminate D].
  destruct Hl as [pre [l [post [st [Hin [_ [_ [Hn _]]]]]]]].
  exists pre, l, post. split; assumption.
Defined.

(** ** Which files are accepted *)

Lemma recordEffect_foundEof (st : State) (line : list ascii) :
  foundEof (recordEffect st line)
  = (typeField line =? typeEof) || foundEof st.
Proof.
  unfold recordEffect.
  destruct (typeField line =? typeEof); [reflexivity|].
  destruct (typeField line =? typeEsa); [reflexivity|].
  destruct (typeField line =? typeSsa); [reflexivity|].
  destruct (typeField line =? typeEla); [reflexivity|].
  destruct (typeField line =? typeSla); reflexivity.
Qed.

(** The flag after an accepted line. *)
Lemma processLine_foundEof (st st' : State) (line : list ascii) :
  processLine st line = Ok st' ->
  foundEof st = false
  /\ validRecord line = true
  /\ st' = nextLine (recordEffect st line)
  /\ foundEof st' = (typeField line =? typeEof).
Proof.
  intros H.
  assert (Heof : foundEof st = false).
  { destruct (foundEof st) eqn:E; [|reflexivity].
    unfold processLine in H. rewrite E in H. discriminate. }
  rewrite (processLine_closed st line Heof) in H.
  destruct (validRecord line); [|discriminate]. injection H as <-.
  repeat split; try reflexivity; try assumption.
  cbn [nextLine foundEof]. rewrite recordEffect_foundEof, Heof.
  apply orb_false_r.
Qed.

Lemma runLines_accepts (input : list (list ascii)) :
  forall st, foundEof st = false ->
    ((exists st', runLines input st = Ok st')
     <-> Forall (fun line => validRecord line = true) input
         /\ eofOnlyLast input).
Proof.
  induction input as [|l rest IH]; intros st Heof.
  - cbn. split; [intros _; split; [constructor | exact I] | eauto].
  - cbn [runLines eofOnlyLast]. split.
    + intros [st' H].
      destruct (processLine st l) as [st1| | |] eqn:E; try discriminate.
      cbn [bind] in H.
      destruct (processLine_foundEof _ _ _ E) as [_ [Hv [_ Hf]]].
      destruct (Z.eqb_spec (typeField l) typeEof) as [Ht | Ht].
      * (* an EOF record: nothing may follow *)
        destruct rest as [|l2 rest].
        { repeat split; auto. }
        exfalso. cbn [runLines] in H. unfold processLine in H.
        rewrite Hf in H. discriminate.
      * destruct (proj1 (IH st1 Hf) (ex_intro _ st' H)) as [Hall Hlast].
        repeat split; auto. intros Ht'. contradiction.
    + intros [Hall [Hlast Hrest]].
      inversion Hall as [|? ? Hv Hall']; subst.
      rewrite (processLine_closed st l Heof), Hv. cbn [bind].
      assert (Hf : foundEof (nextLine (recordEffect st l))
                   = (typeField l =? typeEof)).
      { cbn [nextLine foundEof]. rewrite recordEffect_foundEof, Heof.
        apply orb_false_r. }
      destruct (Z.eqb_spec (typeField l) typeEof) as [Ht | Ht].
      * rewrite (Hlast Ht). cbn [runLines]. eauto.
      * apply (IH _ Hf). auto.
Qed.

(** X14. [processHexFile] reaches its summary exactly when the stream
    ends cleanly, every line is a valid record, and no line follows an
    EOF record. A missing EOF record does not prevent it; in particular
    the empty input is accepted. *)
Theorem processHexFile_accepts (input : list (list ascii)) (ending : streamEnd) :
  (exists st, processHexFile input ending = Finished st)
  <-> ending = CleanEof
      /\ Forall (fun line => validRecord line = true) input
      /\ eofOnlyLast input.
Proof.
  unfold processHexFile. split.
  - intros [st H]. apply lineLoop_Finished in H. destruct H as [H He].
    split; [exact He|].
    apply (runLines_accepts input initialState eq_refl). eauto.
  - intros [He Hacc].
    apply (runLines_accepts input initialState eq_refl) in Hacc.
    destruct Hacc as [st H]. exists st. apply lineLoop_Finished. auto.
Qed.

Lemma runLines_endsWithEof (input : list (list ascii)) :
  forall st st', runLines input st = Ok st' ->
    foundEof st = false ->
    (foundEof st' = true <-> endsWithEof input).
Proof.
  induction input as [|l rest IH]; intros st st' H Heof; cbn [runLines] in H.
  - injection H as <-. rewrite Heof. split; [discriminate|].
    intros [pre [line [E _]]]. destruct pre; discriminate.
  - destruct (processLine st l) as [st1| | |] eqn:E; try discriminate.
    cbn [bind] in H.
    destruct (processLine_foundEof _ _ _ E) as [_ [_ [_ Hf]]].
    destruct rest as [|l2 rest].
    + cbn [runLines] in H. injection H as <-. rewrite Hf. split.
      * intros Ht. apply Z.eqb_eq in Ht. exists [], l. auto.
      * intros [pre [line [Ein Ht]]].
        destruct pre as [|p [|q pre]]; try discriminate.
        injection Ein as <-. now apply Z.eqb_eq.
    + assert (Hf1 : foundEof st1 = false).
      { destruct (foundEof st1) eqn:F; [|reflexivity].
        cbn [runLines] in H. unfold processLine in H. rewrite F in H.
        discriminate. }
      rewrite (IH st1 st' H Hf1). split.
      * intros [pre [line [Ein Ht]]]. exists (l :: pre), line.
        rewrite Ein. auto.
      * intros [pre [line [Ein Ht]]].
        destruct pre as [|p pre]; [discriminate|].
        injection Ein as <- Ein. exists pre, line. auto.
Qed.

(** X15. After a run that reaches the summary, "Missing EOF record" is
    printed exactly when the last line of the input is not an EOF record
    (or there is no line at all). *)
Theorem missing_eof_warning
  (input : list (list ascii)) (ending : streamEnd) (st : State) :
  processHexFile input ending = Finished st ->
  (In MissingEof (printSummary st) <-> ~ endsWithEof input).
Proof.
  intros H. unfold processHexFile in H. apply lineLoop_Finished in H.
  destruct H as [H _].
  pose proof (runLines_endsWithEof input initialState st H eq_refl) as Hw.
  unfold printSummary. destruct (foundEof st); cbn [negb].
  - split.
    + intros Hin. exfalso. cbn [app] in Hin.
      apply in_app_or in Hin. destruct Hin as [Hin | Hin].
      * destruct (numStartAddresses st >? 1);
          [destruct Hin as [D | []]; discriminate|].
        destruct (numStartAddresses st >? 0);
          [destruct Hin as [D | []]; discriminate | destruct Hin].
      * destruct Hin as [D | [D | Hin]]; try discriminate.
        apply in_map_iff in Hin. destruct Hin as [c [D _]]. discriminate.
    + intros Hn. exfalso. apply Hn, Hw. reflexivity.
  - split.
    + intros _ He. apply Hw in He. discriminate.
    + intros _. now left.
Qed.

Lemma missing_eof_warning_witness :
  In MissingEof
    (printSummary
       (nextLine (withData initialState (mkChunk 16 4)))).
Proof.
  refine (proj2 (missing_eof_warning
            [list_ascii_of_string ":0400100001020304E2"] CleanEof _ _) _).
  - vm_compute. reflexivity.
  - intros [pre [line [E Ht]]].
    destruct pre as [|p [|q pre]]; try discriminate.
    injection E as <-. vm_compute in Ht. discriminate.
Defined.

(** ** Counters *)

Lemma recordEffect_data (st : State) (line : list ascii) :
  acceptable line = true ->
  (typeField line = typeData ->
     recordEffect st line
     = withData st (mkChunk (wrap (baseAddress st + rawAddress line))
                      (byteCount line)))
  /\ (typeField line <> typeData ->
      chunks (recordEffect st line) = chunks st
      /\ numOverlapping (recordEffect st line) = numOverlapping st
      /\ numDataRecords (recordEffect st line) = numDataRecords st
      /\ maxDataSize (recordEffect st line) = maxDataSize st).
Proof.
  unfold acceptable, recordEffect. intros Ha. split.
  - intros ->. reflexivity.
  - intros Ht. apply Z.eqb_neq in Ht. rewrite Ht in Ha.
    destruct (typeField line =? typeEof); [repeat split|].
    destruct (typeField line =? typeEsa); [repeat split|].
    destruct (typeField line =? typeSsa); [repeat split|].
    destruct (typeField line =? typeEla); [repeat split|].
    destruct (typeField line =? typeSla); [repeat split|].
    discriminate.
Qed.

Lemma validRecord_acceptable (line : list ascii) :
  validRecord line = true -> acceptable line = true.
Proof.
  unfold validRecord. intros H. apply andb_prop in H. apply H.
Qed.

Lemma max_fold (m b : Z) (l : list Z) :
  fold_right Z.max (Z.max m b) l = Z.max b (fold_right Z.max m l).
Proof.
  induction l as [|x l IH]; cbn [fold_right]; [lia|]. rewrite IH. lia.
Qed.

Lemma runLines_counters (input : list (list ascii)) :
  forall st st', runLines input st = Ok st' ->
    0 <= numDataRecords st < UINT_MODULUS ->
    numDataRecords st'
    = wrap (numDataRecords st
            + Z.of_nat (List.length (linesOfType typeData input)))
    /\ maxDataSize st'
       = fold_right Z.max (maxDataSize st)
           (map byteCount (linesOfType typeData input)).
Proof.
  induction input as [|l rest IH]; intros st st' H Hr; cbn [runLines] in H.
  - injection H as <-. cbn. rewrite Z.add_0_r. split; [|reflexivity].
    symmetry. apply wrap_small. now rewrite <- UINT_MODULUS_eq.
  - destruct (processLine st l) as [st1| | |] eqn:E; try discriminate.
    cbn [bind] in H.
    destruct (processLine_foundEof _ _ _ E) as [_ [Hv [-> _]]].
    destruct (recordEffect_data st l (validRecord_acceptable _ Hv))
      as [Hd Hn].
    unfold linesOfType. cbn [filter]. fold (linesOfType typeData rest).
    destruct (Z.eqb_spec (typeField l) typeData) as [Ht | Ht].
    + specialize (Hd Ht).
      destruct (IH _ _ H) as [H1 H2].
      { cbn [nextLine numDataRecords]. rewrite Hd. cbn [withData numDataRecords].
        rewrite UINT_MODULUS_eq. apply wrap_range. }
      rewrite H1, H2. cbn [nextLine numDataRecords maxDataSize].
      rewrite Hd. cbn [withData numDataRecords maxDataSize csize List.length map
                         fold_right].
      rewrite wrap_wrap_add, max_fold. split; [f_equal; lia | reflexivity].
    + destruct (Hn Ht) as [_ [_ [Hc Hm]]].
      destruct (IH _ _ H) as [H1 H2].
      { cbn [nextLine numDataRecords]. now rewrite Hc. }
      rewrite H1, H2. cbn [nextLine numDataRecords maxDataSize].
      now rewrite Hc, Hm.
Qed.

Lemma largestData_range (input : list (list ascii)) :
  0 <= largestData input <= 255.
Proof.
  unfold largestData.
  induction (linesOfType typeData input) as [|l ls IH]; cbn [map fold_right].
  - lia.
  - pose proof (byteCount_range l). lia.
Qed.

(** X16. After a run in which every line was accepted, the count of
    data records is the number of lines of type 0 (as a 32-bit counter)
    and the maximum size is the largest byte count among them, between 0
    and 255. *)
Theorem data_record_statistics (input : list (list ascii)) (st : State) :
  runLines input initialState = Ok st ->
  numDataRecords st
  = wrap (Z.of_nat (List.length (linesOfType typeData input)))
  /\ maxDataSize st = largestData input
  /\ 0 <= maxDataSize st <= 255.
Proof.
  intros H.
  destruct (runLines_counters input initialState st H) as [H1 H2].
  { vm_compute. split; [discriminate | reflexivity]. }
  cbn [initialState numDataRecords maxDataSize] in H1, H2.
  rewrite Z.add_0_l in H1. fold (largestData input) in H2.
  rewrite H2. repeat split; try assumption; apply largestData_range.
Qed.

Lemma data_record_statistics_witness :
  exists st,
    runLines [list_ascii_of_string ":020000040800F2";
              list_ascii_of_string ":0400100001020304E2";
              list_ascii_of_string ":00000001FF"] initialState = Ok st
    /\ maxDataSize st
       = largestData [list_ascii_of_string ":020000040800F2";
                      list_ascii_of_string ":0400100001020304E2";
                      list_ascii_of_string ":00000001FF"]
    /\ maxDataSize st = 4.
Proof.
  eexists. split; [vm_compute; reflexivity|]. split; [|reflexivity].
  refine (proj1 (proj2 (data_record_statistics
            [list_ascii_of_string ":020000040800F2";
             list_ascii_of_string ":0400100001020304E2";
             list_ascii_of_string ":00000001FF"] _ _))).
  vm_compute. reflexivity.
Defined.

(** ** The bytes of the data records *)

Lemma dataBytes_nonneg (input : list (list ascii)) : 0 <= dataBytes input.
Proof.
  unfold dataBytes.
  induction (linesOfType typeData input) as [|l ls IH]; cbn [map fold_right].
  - lia.
  - pose proof (byteCount_range l). lia.
Qed.

Lemma runLines_totalSize (input : list (list ascii)) :
  forall st st', runLines input st = Ok st' ->
    Forall (fun e => 0 <= csize e) (chunks st) ->
    totalSize (chunks st) + dataBytes input < UINT_MODULUS ->
    totalSize (chunks st') = totalSize (chunks st) + dataBytes input
    /\ Forall (fun e => 0 <= csize e) (chunks st').
Proof.
  induction input as [|l rest IH]; intros st st' H Hnn Hlt;
    cbn [runLines] in H.
  - injection H as <-. cbn. split; [lia | exact Hnn].
  - destruct (processLine st l) as [st1| | |] eqn:E; try discriminate.
    cbn [bind] in H.
    destruct (processLine_foundEof _ _ _ E) as [_ [Hv [-> _]]].
    destruct (recordEffect_data st l (validRecord_acceptable _ Hv))
      as [Hd Hn].
    pose proof (dataBytes_nonneg rest) as Hrest.
    pose proof (byteCount_range l) as Hb.
    unfold dataBytes, linesOfType in Hlt |- *. cbn [filter] in Hlt |- *.
    fold (linesOfType typeData rest) in Hlt |- *.
    destruct (Z.eqb_spec (typeField l) typeData) as [Ht | Ht].
    + cbn [map fold_right] in Hlt |- *. fold (dataBytes rest) in Hlt |- *.
      destruct (addChunk_size
                  (mkChunk (wrap (baseAddress st + rawAddress l)) (byteCount l))
                  (chunks st) (numOverlapping st)) as [Hs Hf];
        [cbn [csize]; lia | exact Hnn | cbn [csize]; lia |].
      cbn [csize] in Hs.
      destruct (IH (nextLine (recordEffect st l)) st' H) as [H1 H2].
      * cbn [nextLine chunks]. rewrite (Hd Ht). exact Hf.
      * cbn [nextLine chunks]. rewrite (Hd Ht). cbn [withData chunks].
        rewrite Hs. lia.
      * rewrite H1. cbn [nextLine chunks]. rewrite (Hd Ht).
        cbn [withData chunks]. rewrite Hs. split; [lia | exact H2].
    + fold (dataBytes rest) in Hlt |- *.
      destruct (Hn Ht) as [Hc _].
      destruct (IH (nextLine (recordEffect st l)) st' H) as [H1 H2].
      * cbn [nextLine chunks]. now rewrite Hc.
      * cbn [nextLine chunks]. now rewrite Hc.
      * rewrite H1. cbn [nextLine chunks]. rewrite Hc. split; [lia | exact H2].
Qed.

(** X17. After a run in which every line was accepted, the sizes of the
    reported segments add up to the bytes of all data records of the
    input, overlapping or not (as long as that total is below
    [2 ^ 32]). *)
Theorem segments_hold_all_data_bytes (input : list (list ascii)) (st : State) :
  runLines input initialState = Ok st ->
  dataBytes input < UINT_MODULUS ->
  totalSize (chunks st) = dataBytes input.
Proof.
  intros H Hlt.
  destruct (runLines_totalSize input initialState st H) as [H1 _].
  - constructor.
  - cbn. exact Hlt.
  - rewrite H1. cbn. lia.
Qed.

Lemma segments_hold_all_data_bytes_witness :
  exists st,
    runLines [list_ascii_of_string ":0400100001020304E2";
              list_ascii_of_string ":0400120005060708D0"] initialState
    = Ok st
    /\ List.length (chunks st) = 2%nat
    /\ totalSize (chunks st)
       = dataBytes [list_ascii_of_string ":0400100001020304E2";
                    list_ascii_of_string ":0400120005060708D0"].
Proof.
  eexists. split; [vm_compute; reflexivity|]. split; [reflexivity|].
  refine (segments_hold_all_data_bytes
            [list_ascii_of_string ":0400100001020304E2";
             list_ascii_of_string ":0400120005060708D0"] _ _ _).
  - vm_compute. reflexivity.
  - vm_compute. reflexivity.
Defined.

(** ** The accumulator: what the collection covers, in any order *)

Lemma checkMergeChunk_union (chunk it : Chunk) :
  valid chunk -> valid it ->
  valid (snd (checkMergeChunk chunk it))
  /\ forall x, covers (snd (checkMergeChunk chunk it)) x
               <-> covers it x
                   \/ (fst (checkMergeChunk chunk it) = true /\ covers chunk x).
Proof.
  intros Hc Hi. rewrite checkMergeChunk_valid by assumption.
  pose proof (valid_range _ Hc) as Rc. pose proof (valid_range _ Hi) as Ri.
  destruct (chunkEnd it =? address chunk) eqn:E1;
    [|destruct (chunkEnd chunk =? address it) eqn:E2];
    cbn [fst snd]; unfold valid, covers, chunkEnd in *; cbn [address csize];
    rewrite ?UINT_MODULUS_eq.
  - apply Z.eqb_eq in E1. split; [lia | intros x; intuition lia].
  - apply Z.eqb_eq in E2. split; [lia | intros x; intuition lia].
  - split; [rewrite UINT_MODULUS_eq in Hi; exact Hi|].
    intros x. intuition discriminate.
Qed.

Lemma mergeFollowing_union (cur : Chunk) (following : list Chunk) :
  valid cur -> Forall valid following ->
  Forall valid (mergeFollowing cur following)
  /\ forall x, covered (mergeFollowing cur following) x
               <-> covers cur x \/ covered following x.
Proof.
  intros Hc Hf. destruct following as [|next tl]; cbn [mergeFollowing].
  - split; [constructor; [exact Hc | constructor]|].
    intros x. rewrite covered_cons. tauto.
  - inversion Hf as [|? ? Hn Ht]; subst.
    destruct (checkMergeChunk_union cur next Hc Hn) as [Hv Hu].
    destruct (checkMergeChunk cur next) as [merged next'] eqn:E.
    cbn [fst snd] in Hv, Hu.
    assert (Hun : merged = false -> next' = next).
    { intros ->. pose proof (checkMergeChunk_unmerged cur next) as U.
      rewrite E in U. now apply U. }
    destruct merged.
    + split; [constructor; assumption|].
      intros x. rewrite !covered_cons, Hu. intuition.
    + split; [constructor; assumption|].
      intros x. rewrite !covered_cons. tauto.
Qed.

Lemma scanChunks_union (chunk : Chunk) (l : list Chunk) :
  valid chunk ->
  forall n, Forall valid l ->
    Forall valid (snd (fst (scanChunks chunk l n)))
    /\ forall x, covered (snd (fst (scanChunks chunk l n))) x
                 <-> covered l x
                     \/ (fst (fst (scanChunks chunk l n)) = true
                         /\ covers chunk x).
Proof.
  intros Hc. induction l as [|it rest IH]; intros n Hl.
  - cbn. split; [constructor|]. intros x. pose proof (covered_nil x).
    intuition discriminate.
  - inversion Hl as [|? ? Hi Hr]; subst.
    destruct (checkMergeChunk_union chunk it Hc Hi) as [Hv Hu].
    pose proof (checkMergeChunk_unmerged chunk it) as Hun.
    cbn [scanChunks].
    destruct (checkMergeChunk chunk it) as [merged it'].
    cbn [fst snd] in Hv, Hu, Hun. destruct merged.
    + cbn [fst snd].
      destruct (mergeFollowing_union it' rest Hv Hr) as [Hf Hm].
      split; [exact Hf|]. intros x. rewrite Hm, covered_cons, Hu. intuition.
    + rewrite (Hun eq_refl) in *.
      destruct (address chunk >=? address it).
      * cbn [fst snd].
        destruct (mergeFollowing_union chunk (it :: rest) Hc Hl) as [Hf Hm].
        split; [exact Hf|]. intros x. rewrite Hm. intuition.
      * set (n1 := if overlapping chunk it then wrap (n + 1) else n).
        destruct (IH n1 Hr) as [Hf Hm].
        destruct (scanChunks chunk rest n1) as [[fAdded rest'] m].
        cbn [fst snd] in *. split; [constructor; assumption|].
        intros x. rewrite !covered_cons, Hm. tauto.
Qed.

Lemma addChunk_union (chunk : Chunk) (l : list Chunk) (n : Z) :
  valid chunk -> Forall valid l ->
  Forall valid (fst (addChunk chunk l n))
  /\ forall x, covered (fst (addChunk chunk l n)) x
               <-> covered l x \/ covers chunk x.
Proof.
  intros Hc Hl. destruct (scanChunks_union chunk l Hc n Hl) as [Hf Hm].
  unfold addChunk. destruct (scanChunks chunk l n) as [[fAdded l'] m].
  cbn [fst snd] in *. destruct fAdded; cbn [fst].
  - split; [exact Hf|]. intros x. rewrite Hm. intuition.
  - split; [constructor; assumption|].
    intros x. rewrite covered_cons, Hm. intuition discriminate.
Qed.

Lemma addChunks_union (cs : list Chunk) :
  forall l n, Forall valid l -> Forall valid cs ->
    Forall valid (fst (addChunks cs (l, n)))
    /\ forall x, covered (fst (addChunks cs (l, n))) x
                 <-> covered l x \/ covered cs x.
Proof.
  induction cs as [|c rest IH]; intros l n Hl Hcs.
  - cbn. split; [exact Hl|]. intros x. pose proof (covered_nil x). tauto.
  - inversion Hcs as [|? ? Hc Hrest]; subst.
    destruct (addChunk_union c l n Hc Hl) as [Hf Hm].
    unfold addChunks. cbn [fold_left fst snd].
    fold (addChunks rest (addChunk c l n)).
    rewrite (surjective_pairing (addChunk c l n)).
    destruct (IH _ (snd (addChunk c l n)) Hf Hrest) as [Hf' Hm'].
    split; [exact Hf'|]. intros x. rewrite Hm', Hm, covered_cons. tauto.
Qed.

(** X18. Whatever the order of the data chunks and whether or not they
    overlap, as long as each lies inside the address space the
    collection covers exactly the addresses of the chunks added: no
    address is lost and none is invented, and every element lies inside
    the address space. *)
Theorem collection_covers_the_data (cs : list Chunk) (n : Z) :
  Forall valid cs ->
  Forall valid (fst (addChunks cs ([], n)))
  /\ forall x, covered (fst (addChunks cs ([], n))) x <-> covered cs x.
Proof.
  intros Hcs.
  destruct (addChunks_union cs [] n (Forall_nil _) Hcs) as [Hf Hm].
  split; [exact Hf|]. intros x. rewrite Hm. pose proof (covered_nil x). tauto.
Qed.

Lemma collection_covers_the_data_witness :
  covered (fst (addChunks [mkChunk 10 2; mkChunk 0 8; mkChunk 4 4] ([], 0))) 5.
Proof.
  refine (proj2 (proj2 (collection_covers_the_data
            [mkChunk 10 2; mkChunk 0 8; mkChunk 4 4] 0 _) 5) _).
  - repeat constructor; unfold chunkEnd; cbn; lia.
  - exists (mkChunk 0 8). split; [cbn; auto|].
    unfold covers, chunkEnd. cbn. lia.
Defined.

Lemma scanChunks_no_overlap (chunk : Chunk) (l : list Chunk) :
  valid chunk ->
  forall n, (forall e, In e l -> valid e /\ disjoint chunk e) ->
    snd (scanChunks chunk l n) = n.
Proof.
  intros Hc. induction l as [|it rest IH]; intros n Hl; [reflexivity|].
  destruct (Hl it (or_introl eq_refl)) as [Hv Hd].
  cbn [scanChunks]. rewrite (overlapping_disjoint chunk Hc it Hv Hd).
  destruct (checkMergeChunk chunk it) as [merged it'].
  destruct merged; [reflexivity|].
  destruct (address chunk >=? address it); [reflexivity|].
  specialize (IH n (fun e Hin => Hl e (or_intror Hin))).
  destruct (scanChunks chunk rest n) as [[fAdded rest'] m].
  exact IH.
Qed.

Lemma addChunks_no_overlap (cs : list Chunk) :
  forall seen l n,
    Forall valid l -> Forall valid seen -> Forall valid cs ->
    (forall x, covered l x <-> covered seen x) ->
    noOverlapFrom seen cs ->
    snd (addChunks cs (l, n)) = n.
Proof.
  induction cs as [|c rest IH]; intros seen l n Hl Hseen Hcs Hcov Hno.
  - reflexivity.
  - inversion Hcs as [|? ? Hc Hrest]; subst.
    cbn [noOverlapFrom] in Hno. destruct Hno as [Hd Hno].
    destruct (addChunk_union c l n Hc Hl) as [Hf Hm].
    assert (Hn : snd (addChunk c l n) = n).
    { rewrite addChunk_count. apply scanChunks_no_overlap; [exact Hc|].
      intros e Hin. rewrite Forall_forall in Hl.
      pose proof (Hl e Hin) as He. split; [exact He|].
      pose proof (valid_range _ Hc) as Rc.
      pose proof (valid_range _ He) as Re.
      unfold disjoint, chunkEnd.
      destruct (Z_le_gt_dec (address c + csize c) (address e)) as [|G1];
        [now left|].
      destruct (Z_le_gt_dec (address e + csize e) (address c)) as [|G2];
        [now right|].
      exfalso.
      assert (Hx : covered l (Z.max (address c) (address e))).
      { exists e. split; [exact Hin|]. unfold covers, chunkEnd. lia. }
      apply Hcov in Hx. destruct Hx as [d [Hind Hcd]].
      rewrite Forall_forall in Hd. specialize (Hd d Hind).
      unfold disjoint, covers, chunkEnd in *. lia. }
    unfold addChunks. cbn [fold_left fst snd].
    fold (addChunks rest (addChunk c l n)).
    rewrite (surjective_pairing (addChunk c l n)), Hn.
    apply (IH (c :: seen)); try assumption.
    + constructor; assumption.
    + intros x. rewrite Hm, covered_cons, Hcov. tauto.
Qed.

(** X19. When no data chunk shares an address with an earlier one, no
    overlap is counted, in whatever order the chunks arrive. *)
Theorem no_overlap_is_counted_without_one (cs : list Chunk) (n : Z) :
  Forall valid cs -> noOverlapFrom [] cs ->
  snd (addChunks cs ([], n)) = n.
Proof.
  intros Hcs Hno.
  apply (addChunks_no_overlap cs [] [] n); auto. intros x. tauto.
Qed.

Lemma no_overlap_is_counted_without_one_witness :
  snd (addChunks [mkChunk 10 2; mkChunk 0 2; mkChunk 2 8] ([], 0)) = 0.
Proof.
  refine (no_overlap_is_counted_without_one
            [mkChunk 10 2; mkChunk 0 2; mkChunk 2 8] 0 _ _).
  - repeat constructor; unfold chunkEnd; cbn; lia.
  - cbn. repeat split; repeat constructor; unfold disjoint, chunkEnd; cbn; lia.
Defined.

(** ** The summary *)

Lemma ascendingSegments_weaken (out : list outputLine) (lo lo' : Z) :
  ascendingSegments lo out -> lo' <= lo -> ascendingSegments lo' out.
Proof.
  destruct out as [|[| | | | |a s] rest]; cbn [ascendingSegments]; try tauto.
  intros [H1 H2] Hle. split; [lia | exact H2].
Qed.

Lemma descending_reversed (l : list Chunk) :
  forall hi lo tail,
    descending hi l -> lo <= 0 -> lo <= hi ->
    ascendingSegments hi tail ->
    ascendingSegments lo
      (map (fun chunk => Segment (address chunk) (csize chunk)) (rev l)
       ++ tail).
Proof.
  induction l as [|e rest IH]; intros hi lo tail Hd Hlo Hhi Ht.
  - cbn. now apply (ascendingSegments_weaken tail hi lo).
  - cbn [descending] in Hd. destruct Hd as [Hv [He Hr]].
    pose proof (valid_range _ Hv) as Re. unfold chunkEnd in He.
    cbn [rev]. rewrite map_app, <- app_assoc. cbn [map app].
    apply (IH (address e)); try assumption; try lia.
    cbn [ascendingSegments]. split; [lia|]. split; [lia|].
    apply (ascendingSegments_weaken tail hi); [exact Ht | lia].
Qed.

(** X20. For a sequence of data chunks that keeps the collection in
    order (each chunk inside the address space, sharing no address with
    an earlier one, and not wholly below all earlier ones without
    touching one), the summary ends with one segment line per element of
    the collection, in ascending address order, each starting strictly
    above the end of the one before it. *)
Theorem summary_segments_ascend (cs : list Chunk) (st : State) :
  orderly cs ->
  chunks st = fst (addChunks cs ([], 0)) ->
  exists head segments,
    printSummary st = head ++ segments
    /\ List.length segments = List.length (chunks st)
    /\ ascendingSegments 0 segments.
Proof.
  intros Hord Hch.
  destruct (addChunks_orderly cs 0 Hord) as [Hd _]. rewrite <- Hch in Hd.
  unfold printSummary. rewrite !app_assoc.
  eexists. eexists. split; [reflexivity|]. split.
  - now rewrite length_map, length_rev.
  - rewrite <- (app_nil_r (map _ (rev (chunks st)))).
    apply (descending_reversed (chunks st) UINT_MODULUS 0 []);
      [exact Hd | lia | rewrite UINT_MODULUS_eq; lia | exact I].
Qed.

Lemma summary_segments_ascend_witness :
  exists head,
    printSummary (withData (withData initialState (mkChunk 16 4))
                    (mkChunk 32 4))
    = head ++ [Segment 16 4; Segment 32 4].
Proof.
  destruct (summary_segments_ascend [mkChunk 16 4; mkChunk 32 4]
              (withData (withData initialState (mkChunk 16 4)) (mkChunk 32 4)))
    as [head [segments [E _]]].
  - apply orderlyFrom_orderly. vm_compute. reflexivity.
  - reflexivity.
  - exists [MissingEof; DataRecords 2 4; DataSegments 2 None]. reflexivity.
Defined.

(** ** [main] *)

(** X21. [main] returns 0 exactly when it is given no argument or one
    argument naming a file that opens, the stream ends cleanly, every
    line is a valid record and no line follows an EOF record; it returns
    1 exactly when it is given two arguments or more (or no program
    name); in every other case it returns 2. *)
Theorem main_exit_status (argc : Z) (openFailed : bool)
  (input : list (list ascii)) (ending : streamEnd) :
  (main argc openFailed input ending = Some 0
   <-> (argc = 1 \/ (argc = 2 /\ openFailed = false))
       /\ ending = CleanEof
       /\ Forall (fun line => validRecord line = true) input
       /\ eofOnlyLast input)
  /\ (main argc openFailed input ending = Some 1 <-> argc <> 1 /\ argc <> 2)
  /\ (main argc openFailed input ending = Some 0
      \/ main argc openFailed input ending = Some 1
      \/ main argc openFailed input ending = Some 2).
Proof.
  assert (Hrun : exitAfter (processHexFile input ending) = Some 0
                 <-> ending = CleanEof
                     /\ Forall (fun line => validRecord line = true) input
                     /\ eofOnlyLast input).
  { unfold processHexFile. split.
    - intros H.
      destruct (lineLoop input ending initialState) as [st| |] eqn:E;
        try discriminate.
      apply lineLoop_Finished in E. destruct E as [E He].
      split; [exact He|].
      apply (runLines_accepts input initialState eq_refl). eauto.
    - intros [He Hacc].
      apply (runLines_accepts input initialState eq_refl) in Hacc.
      destruct Hacc as [st H].
      assert (E : lineLoop input ending initialState = Finished st)
        by (apply lineLoop_Finished; auto).
      rewrite E. reflexivity. }
  assert (Hcodes : exitAfter (processHexFile input ending) = Some 0
                   \/ exitAfter (processHexFile input ending) = Some 2).
  { pose proof (lineLoop_defined input ending initialState) as Hd.
    fold (processHexFile input ending) in Hd.
    destruct (processHexFile input ending); cbn [exitAfter]; auto.
    contradiction. }
  unfold main.
  destruct (Z.eqb_spec argc 1) as [A1 | A1];
    [|destruct (Z.eqb_spec argc 2) as [A2 | A2]; [destruct openFailed|]].
  - split; [|split].
    + rewrite Hrun. intuition.
    + split; [|intros [? _]; contradiction].
      intros H. destruct Hcodes as [C | C]; rewrite C in H; discriminate.
    + destruct Hcodes; auto.
  - split; [|split]; [| |auto].
    + split; [discriminate|]. intros [[? | [_ D]] _]; [lia | discriminate].
    + split; [discriminate | intros [_ ?]; contradiction].
  - split; [|split].
    + rewrite Hrun. intuition.
    + split; [|intros [_ ?]; contradiction].
      intros H. destruct Hcodes as [C | C]; rewrite C in H; discriminate.
    + destruct Hcodes; auto.
  - split; [|split]; [| |auto].
    + split; [discriminate|]. intros [[? | [? _]] _]; contradiction.
    + split; auto.
Qed.

(** ** Start addresses in the summary *)

Lemma recordEffect_start (st : State) (line : list ascii) :
  numStartAddresses (recordEffect st line)
  = if (typeField line =? typeSsa) || (typeField line =? typeSla)
    then wrap (numStartAddresses st + 1)
    else numStartAddresses st.
Proof.
  unfold recordEffect, typeEof, typeEsa, typeSsa, typeEla, typeSla.
  cbv zeta.
  destruct (Z.eqb_spec (typeField line) 1) as [-> | T1]; [reflexivity|].
  destruct (Z.eqb_spec (typeField line) 2) as [-> | T2]; [reflexivity|].
  destruct (Z.eqb_spec (typeField line) 3) as [-> | T3]; [reflexivity|].
  destruct (Z.eqb_spec (typeField line) 4) as [-> | T4]; [reflexivity|].
  destruct (Z.eqb_spec (typeField line) 5) as [T5 | T5]; reflexivity.
Qed.

Lemma runLines_startCount (input : list (list ascii)) :
  forall st st', runLines input st = Ok st' ->
    0 <= numStartAddresses st < UINT_MODULUS ->
    numStartAddresses st'
    = wrap (numStartAddresses st + Z.of_nat (List.length (startLines input))).
Proof.
  induction input as [|l rest IH]; intros st st' H Hr; cbn [runLines] in H.
  - injection H as <-. cbn. rewrite Z.add_0_r.
    symmetry. apply wrap_small. now rewrite <- UINT_MODULUS_eq.
  - destruct (processLine st l) as [st1| | |] eqn:E; try discriminate.
    cbn [bind] in H.
    destruct (processLine_foundEof _ _ _ E) as [_ [_ [-> _]]].
    pose proof (recordEffect_start st l) as Hs.
    unfold startLines. cbn [filter]. fold (startLines rest).
    rewrite (IH _ _ H); cbn [nextLine numStartAddresses]; rewrite Hs.
    + destruct ((typeField l =? typeSsa) || (typeField l =? typeSla)).
      * cbn [List.length]. rewrite wrap_wrap_add. f_equal. lia.
      * reflexivity.
    + destruct ((typeField l =? typeSsa) || (typeField l =? typeSla));
        [rewrite UINT_MODULUS_eq; apply wrap_range | exact Hr].
Qed.

Lemma printSummary_start (st : State) :
  (In MultipleStartAddresses (printSummary st) <-> 1 < numStartAddresses st)
  /\ ((exists a, In (StartAddress a) (printSummary st))
      <-> numStartAddresses st = 1).
Proof.
  unfold printSummary.
  assert (Hseg : forall o, In o (map (fun chunk => Segment (address chunk)
                                        (csize chunk)) (rev (chunks st))) ->
                           exists a s, o = Segment a s).
  { intros o Hin. apply in_map_iff in Hin. destruct Hin as [c [<- _]]. eauto. }
  split; split.
  - intros Hin. repeat (apply in_app_or in Hin; destruct Hin as [Hin | Hin]).
    + destruct (negb (foundEof st)); [destruct Hin as [D | []]; discriminate
                                     | destruct Hin].
    + destruct (numStartAddresses st >? 1) eqn:E; [lia|].
      destruct (numStartAddresses st >? 0);
        [destruct Hin as [D | []]; discriminate | destruct Hin].
    + destruct Hin as [D | []]. discriminate.
    + destruct Hin as [D | []]. discriminate.
    + destruct (Hseg _ Hin) as [a [s D]]. discriminate.
  - intros H1. apply in_or_app. right. apply in_or_app. left.
    destruct (numStartAddresses st >? 1) eqn:E; [now left | lia].
  - intros [a Hin].
    repeat (apply in_app_or in Hin; destruct Hin as [Hin | Hin]).
    + destruct (negb (foundEof st)); [destruct Hin as [D | []]; discriminate
                                     | destruct Hin].
    + destruct (numStartAddresses st >? 1) eqn:E1;
        [destruct Hin as [D | []]; discriminate|].
      destruct (numStartAddresses st >? 0) eqn:E0; [lia | destruct Hin].
    + destruct Hin as [D | []]. discriminate.
    + destruct Hin as [D | []]. discriminate.
    + destruct (Hseg _ Hin) as [a' [s D]]. discriminate.
  - intros H1. exists (startAddress st).
    apply in_or_app. right. apply in_or_app. left. rewrite H1.
    cbn. now left.
Qed.

(** X22. After a run that reaches the summary (with fewer than [2 ^ 32]
    start-address records), "Multiple start addresses found" is printed
    exactly when the input holds two or more start-address records, of
    either kind, and a start address is printed exactly when it holds
    one. *)
Theorem start_addresses_in_summary
  (input : list (list ascii)) (ending : streamEnd) (st : State) :
  processHexFile input ending = Finished st ->
  Z.of_nat (List.length (startLines input)) < UINT_MODULUS ->
  (In MultipleStartAddresses (printSummary st)
   <-> (2 <= List.length (startLines input))%nat)
  /\ ((exists a, In (StartAddress a) (printSummary st))
      <-> List.length (startLines input) = 1%nat).
Proof.
  intros H Hlt. unfold processHexFile in H. apply lineLoop_Finished in H.
  destruct H as [H _].
  assert (Hr : 0 <= numStartAddresses initialState < UINT_MODULUS)
    by (vm_compute; split; [discriminate | reflexivity]).
  pose proof (runLines_startCount input initialState st H Hr) as Hc.
  cbn [initialState numStartAddresses] in Hc. rewrite Z.add_0_l in Hc.
  rewrite wrap_small in Hc
    by (rewrite <- UINT_MODULUS_eq; lia).
  destruct (printSummary_start st) as [Hm Hs].
  rewrite Hm, Hs, Hc. split; lia.
Qed.

Lemma start_addresses_in_summary_witness :
  exists st,
    processHexFile [list_ascii_of_string ":0400000312345678E5";
                    list_ascii_of_string ":0400000500001000E7"] CleanEof
    = Finished st
    /\ In MultipleStartAddresses (printSummary st).
Proof.
  eexists. split; [vm_compute; reflexivity|].
  refine (proj2 (proj1 (start_addresses_in_summary
            [list_ascii_of_string ":0400000312345678E5";
             list_ascii_of_string ":0400000500001000E7"] CleanEof _ _ _)) _).
  - vm_compute. reflexivity.
  - vm_compute. reflexivity.
  - vm_compute. lia.
Defined.
